(** * The pruned block dispatcher of chain/pruned_block_dispatcher.go

    A shallow embedding of the dispatcher: the peer filter, the request
    registry with its getdata batching, the response validator, the peer
    pool, and the facade's constructor.  The dispatcher struct is a record,
    its maps are finite maps, the channels handed to callers live in a heap
    indexed by allocation order, and the goroutines are the moves of a step
    relation. *)

From Stdlib Require Import ZArith Lia Ascii String List Bool.
From stdpp Require Import base tactics option numbers list strings gmap sets fin_maps.

(** ** Results of fallible code *)

(** A Go call either returns a value, returns a non-nil error, or panics
    (a run-time error such as an index out of range). *)
Inductive outcome (E A : Type) : Type :=
| Ok (a : A)
| Err (e : E)
| Panic.
Arguments Ok {E A} a.
Arguments Err {E A} e.
Arguments Panic {E A}.

Definition is_Ok {E A} (o : outcome E A) : Prop :=
  match o with Ok _ => True | _ => False end.

(** ** encoding/hex and encoding/binary, as far as filterPeers uses them *)

Module hex.

Inductive error :=
| InvalidByteError (c : ascii)
| ErrLength.

(** fromHexChar: the value of one hexadecimal digit, either case. *)
Definition fromHexChar (c : ascii) : option Z :=
  let n := Z.of_N (N_of_ascii c) in
  if ((48 <=? n) && (n <=? 57))%Z then Some (n - 48)%Z
  else if ((97 <=? n) && (n <=? 102))%Z then Some (n - 97 + 10)%Z
  else if ((65 <=? n) && (n <=? 70))%Z then Some (n - 65 + 10)%Z
  else None.

(** DecodeString: two digits per byte; the bytes decoded before the first
    bad digit are returned next to the error, and a lone last digit is
    [ErrLength] unless it is itself invalid. *)
Fixpoint DecodeString (s : string) : list Z * option error :=
  match s with
  | EmptyString => ([], None)
  | String p EmptyString =>
      match fromHexChar p with
      | None => ([], Some (InvalidByteError p))
      | Some _ => ([], Some ErrLength)
      end
  | String p (String q rest) =>
      match fromHexChar p with
      | None => ([], Some (InvalidByteError p))
      | Some a =>
          match fromHexChar q with
          | None => ([], Some (InvalidByteError q))
          | Some b =>
              let '(bs, e) := DecodeString rest in
              (Z.lor (Z.shiftl a 4) b :: bs, e)
          end
      end
  end.

End hex.

Module BigEndian.

(** binary.BigEndian.Uint64: reads b[0..7]; the bounds check on b[7]
    panics on a shorter slice, and bytes after the eighth are ignored. *)
Definition Uint64 (b : list Z) : option Z :=
  match b with
  | b0 :: b1 :: b2 :: b3 :: b4 :: b5 :: b6 :: b7 :: _ =>
      Some (Z.lor b7 (Z.lor (Z.shiftl b6 8) (Z.lor (Z.shiftl b5 16)
           (Z.lor (Z.shiftl b4 24) (Z.lor (Z.shiftl b3 32)
           (Z.lor (Z.shiftl b2 40) (Z.lor (Z.shiftl b1 48)
                  (Z.shiftl b0 56))))))))
  | _ => None
  end.

End BigEndian.

(** ** Service flags *)

(** Modelled from the spec: the two service bits of the wire package, which
    is not part of this repository's sources.  The spec's scenario S1 reads
    0x0001 as NETWORK only and 0x0409 as NETWORK, WITNESS and one other bit;
    wire declares them as bit 0 and bit 3. *)
Definition SFNodeNetwork : Z := Z.shiftl 1 0.
Definition SFNodeWitness : Z := Z.shiftl 1 3.

Definition requiredServices : Z := Z.lor SFNodeNetwork SFNodeWitness.
Definition prunedNodeService : Z := Z.shiftl 1 11.

(** ** Peer descriptors and the filter *)

(** btcjson.GetPeerInfoResult, the two fields the dispatcher reads. *)
Record GetPeerInfoResult := {
  Addr : string;
  Services : string
}.

(** The loop of filterPeers, with the slice [eligible] as accumulator. *)
Fixpoint filterPeers_loop (peers eligible : list GetPeerInfoResult)
  : outcome hex.error (list GetPeerInfoResult) :=
  match peers with
  | [] => Ok eligible
  | peer :: rest =>
      match hex.DecodeString (Services peer) with
      | (_, Some err) => Err err
      | (rawServices, None) =>
          match BigEndian.Uint64 rawServices with
          | None => Panic
          | Some services =>
              if negb (Z.land services requiredServices =? requiredServices)%Z
              then filterPeers_loop rest eligible
              else if (Z.land services prunedNodeService =? prunedNodeService)%Z
              then filterPeers_loop rest eligible
              else filterPeers_loop rest (eligible ++ [peer])
          end
      end
  end.

Definition filterPeers (peers : list GetPeerInfoResult)
  : outcome hex.error (list GetPeerInfoResult) :=
  filterPeers_loop peers [].

(** *** The words of the eligibility rule *)

(** The number a byte string denotes when read big-endian. *)
Definition be_value (bs : list Z) : Z :=
  fold_left (fun acc b => (acc * 256 + b)%Z) bs 0%Z.

(** A descriptor is well formed when its Services field is valid hex for
    exactly eight bytes; [flags_of] is then the advertised bit field. *)
Definition wellFormed (p : GetPeerInfoResult) : Prop :=
  snd (hex.DecodeString (Services p)) = None /\
  length (fst (hex.DecodeString (Services p))) = 8%nat.

Definition flags_of (p : GetPeerInfoResult) : Z :=
  be_value (fst (hex.DecodeString (Services p))).

Definition eligible_flags (s : Z) : Prop :=
  Z.testbit s 0 = true /\ Z.testbit s 3 = true /\ Z.testbit s 11 = false.

Definition eligible_flagsb (s : Z) : bool :=
  Z.testbit s 0 && Z.testbit s 3 && negb (Z.testbit s 11).

(** Valid hex that decodes to at least eight bytes: what the loop body needs
    to get past the decode and the 64-bit read. *)
Definition readable (p : GetPeerInfoResult) : Prop :=
  snd (hex.DecodeString (Services p)) = None /\
  (8 <= length (fst (hex.DecodeString (Services p))))%nat.

Definition malformed_hex (p : GetPeerInfoResult) : Prop :=
  snd (hex.DecodeString (Services p)) <> None.

Definition short_flags (p : GetPeerInfoResult) : Prop :=
  snd (hex.DecodeString (Services p)) = None /\
  (length (fst (hex.DecodeString (Services p))) < 8)%nat.

(** The 64-bit value the loop body computes for a descriptor. *)
Definition services_read (p : GetPeerInfoResult) : option Z :=
  BigEndian.Uint64 (fst (hex.DecodeString (Services p))).

(** What the loop body decides from the value read. *)
Definition keeps (p : GetPeerInfoResult) : bool :=
  match services_read p with
  | Some s => eligible_flagsb s
  | None => false
  end.

(** The four candidates of the spec's scenario S1, and two descriptors a
    backend could also return: one with too few digits, one with a digit
    that is not hexadecimal. *)
Module S1.
Definition full : GetPeerInfoResult :=
  {| Addr := "10.0.0.1:8333"; Services := "0000000000000409" |}.
Definition network_only : GetPeerInfoResult :=
  {| Addr := "10.0.0.2:8333"; Services := "0000000000000001" |}.
Definition network_pruned : GetPeerInfoResult :=
  {| Addr := "10.0.0.3:8333"; Services := "0000000000000801" |}.
Definition full_pruned : GetPeerInfoResult :=
  {| Addr := "10.0.0.4:8333"; Services := "0000000000000c09" |}.
Definition candidates : list GetPeerInfoResult :=
  [full; network_only; network_pruned; full_pruned].

Definition short : GetPeerInfoResult :=
  {| Addr := "10.0.0.5:8333"; Services := "0409" |}.
Definition not_hex : GetPeerInfoResult :=
  {| Addr := "10.0.0.6:8333"; Services := "000000000000040g" |}.
End S1.

(** ** The collaborators the dispatcher is built on *)

(** chainhash.Hash is a 32-byte array; it is read here as the number its
    bytes denote, which is all a map key needs. *)
Abbreviation Hash := N (only parsing).

(** What the dispatcher takes from the wire, blockchain and chainhash
    packages: block messages and their hash, the median time source with the
    sanity check that consults it, and the protocol's bound on the inventory
    entries of one message.  [CheckBlockSanity] is [true] when the check
    returns a nil error (the proof-of-work limit is a constant of the chain
    parameters). *)
Class Collaborators := {
  MsgBlock : Type;
  MedianTimeSource : Type;
  NewMedianTime : MedianTimeSource;
  BlockHash : MsgBlock -> Hash;
  CheckBlockSanity : MsgBlock -> MedianTimeSource -> bool;
  MaxInvPerMsg : Z
}.

(** Errors the dispatcher returns. *)
Inductive error :=
| ErrNumTargetPeer          (* config option NumTargetPeer must be >= 1 *)
| ErrMaxRequestInvs         (* config option MaxRequestInvs must be <= ... *)
| ErrTooManyInvs            (* wire: too many invvect in message *)
| ErrGetPeers               (* the backend's GetPeers failed *)
| ErrServices (e : hex.error)
| ErrQueryPeer (addr : string) (* unable to configure query peer *)
| ErrShuttingDown.

(** wire.InvVect and wire.MsgGetData. *)
Record InvVect := NewInvVect { InvType : Z; InvHash : Hash }.
Definition InvTypeBlock : Z := 2.

Record MsgGetData := { InvList : list InvVect }.
Definition NewMsgGetData : MsgGetData := {| InvList := [] |}.

(** query.Progress. *)
Record Progress := { Progressed : bool; Finished : bool }.

(** The outbound peer handle, known by the address it was created for. *)
Record Peer := { peerAddr : string }.

(** What the dispatcher does to the outside world, in order. *)
Inductive Event :=
| EvGetPeers
| EvDial (addr : string)
| EvPublish (addr : string)       (* sent on peersConnected *)
| EvDisconnect (addr : string).   (* Disconnect called on the handle *)

(** The fields of PrunedBlockDispatcherConfig that are data; Dial, GetPeers
    and the ticker are the environment of the pool task below. *)
Record PrunedBlockDispatcherConfig := {
  NumTargetPeers : Z;
  MaxRequestInvs : Z
}.

Abbreviation ChanId := nat (only parsing).

Section Dispatcher.
Context `{Collaborators}.

(** wire.Message, by dynamic type. *)
Inductive Message :=
| MBlock (block : MsgBlock)
| MGetData (getData : MsgGetData)
| MOther (command : string).

(** query.Request; its HandleResp is always the dispatcher's handleResp. *)
Record Request := { Req : MsgGetData }.

(** A buffered channel of blocks. *)
Record Chan := { cap : nat; buf : list MsgBlock; closed : bool }.

Definition make_chan (n : nat) : Chan :=
  {| cap := n; buf := []; closed := false |}.

(** The dispatcher.  The first six fields are those of the Go struct
    ([quit] is [true] once the channel is closed).  The last three are the
    run time around it: the channels made by newRequest, indexed in
    allocation order, so that one channel registered under several hashes
    is one cell; the goroutines spawned by handleResp, each with the block
    and the channels still to be served; and the log of I/O. *)
Record PrunedBlockDispatcher := {
  cfg : PrunedBlockDispatcherConfig;
  blocksQueried : gmap Hash (list ChanId);
  currentPeers : gmap string Peer;
  bannedPeers : gset string;
  timeSource : MedianTimeSource;
  quit : bool;
  heap : list Chan;
  fanouts : list (MsgBlock * list ChanId);
  io : list Event
}.

Definition set_blocksQueried (f : gmap Hash (list ChanId) -> gmap Hash (list ChanId))
  (d : PrunedBlockDispatcher) : PrunedBlockDispatcher :=
  {| cfg := cfg d; blocksQueried := f (blocksQueried d);
     currentPeers := currentPeers d; bannedPeers := bannedPeers d;
     timeSource := timeSource d; quit := quit d; heap := heap d;
     fanouts := fanouts d; io := io d |}.

Definition set_currentPeers (f : gmap string Peer -> gmap string Peer)
  (d : PrunedBlockDispatcher) : PrunedBlockDispatcher :=
  {| cfg := cfg d; blocksQueried := blocksQueried d;
     currentPeers := f (currentPeers d); bannedPeers := bannedPeers d;
     timeSource := timeSource d; quit := quit d; heap := heap d;
     fanouts := fanouts d; io := io d |}.

Definition set_bannedPeers (f : gset string -> gset string)
  (d : PrunedBlockDispatcher) : PrunedBlockDispatcher :=
  {| cfg := cfg d; blocksQueried := blocksQueried d;
     currentPeers := currentPeers d; bannedPeers := f (bannedPeers d);
     timeSource := timeSource d; quit := quit d; heap := heap d;
     fanouts := fanouts d; io := io d |}.

Definition set_timeSource (t : MedianTimeSource)
  (d : PrunedBlockDispatcher) : PrunedBlockDispatcher :=
  {| cfg := cfg d; blocksQueried := blocksQueried d;
     currentPeers := currentPeers d; bannedPeers := bannedPeers d;
     timeSource := t; quit := quit d; heap := heap d;
     fanouts := fanouts d; io := io d |}.

Definition set_quit (q : bool)
  (d : PrunedBlockDispatcher) : PrunedBlockDispatcher :=
  {| cfg := cfg d; blocksQueried := blocksQueried d;
     currentPeers := currentPeers d; bannedPeers := bannedPeers d;
     timeSource := timeSource d; quit := q; heap := heap d;
     fanouts := fanouts d; io := io d |}.

Definition set_heap (f : list Chan -> list Chan)
  (d : PrunedBlockDispatcher) : PrunedBlockDispatcher :=
  {| cfg := cfg d; blocksQueried := blocksQueried d;
     currentPeers := currentPeers d; bannedPeers := bannedPeers d;
     timeSource := timeSource d; quit := quit d; heap := f (heap d);
     fanouts := fanouts d; io := io d |}.

Definition set_fanouts (f : list (MsgBlock * list ChanId) -> list (MsgBlock * list ChanId))
  (d : PrunedBlockDispatcher) : PrunedBlockDispatcher :=
  {| cfg := cfg d; blocksQueried := blocksQueried d;
     currentPeers := currentPeers d; bannedPeers := bannedPeers d;
     timeSource := timeSource d; quit := quit d; heap := heap d;
     fanouts := f (fanouts d); io := io d |}.

Definition emit (evs : list Event)
  (d : PrunedBlockDispatcher) : PrunedBlockDispatcher :=
  {| cfg := cfg d; blocksQueried := blocksQueried d;
     currentPeers := currentPeers d; bannedPeers := bannedPeers d;
     timeSource := timeSource d; quit := quit d; heap := heap d;
     fanouts := fanouts d; io := io d ++ evs |}.

(** *** NewPrunedBlockDispatcher *)

Definition NewPrunedBlockDispatcher (c : PrunedBlockDispatcherConfig)
  : outcome error PrunedBlockDispatcher :=
  if (NumTargetPeers c <? 1)%Z then Err ErrNumTargetPeer
  else if (MaxRequestInvs c >? MaxInvPerMsg)%Z then Err ErrMaxRequestInvs
  else Ok {| cfg := c; blocksQueried := ∅; currentPeers := ∅;
             bannedPeers := ∅; timeSource := NewMedianTime; quit := false;
             heap := []; fanouts := []; io := [] |}.

(** *** newRequest *)

(** wire's MsgGetData.AddInvVect refuses the entry that would take the
    message past MaxInvPerMsg. *)
Definition AddInvVect (msg : MsgGetData) (iv : InvVect)
  : outcome error MsgGetData :=
  if (Z.of_nat (length (InvList msg)) + 1 >? MaxInvPerMsg)%Z
  then Err ErrTooManyInvs
  else Ok {| InvList := InvList msg ++ [iv] |}.

(** The start of the loop body: a nil getdata message is replaced by a new,
    empty one. *)
Definition orNew (getData : option MsgGetData) : MsgGetData :=
  match getData with
  | None => NewMsgGetData
  | Some g => g
  end.

(** d.blocksQueried[block] = append(d.blocksQueried[block], blockChan); a
    missing key reads as the nil slice. *)
Definition register (blockChan : ChanId) (block : Hash)
  (m : gmap Hash (list ChanId)) : gmap Hash (list ChanId) :=
  <[block := default [] (m !! block) ++ [blockChan]]> m.

(** The test that ends the loop body: queue the message when it has entries
    and this is the last index, or when it holds MaxRequestInvs entries. *)
Definition queueNow (d : PrunedBlockDispatcher) (len i : nat)
  (getData : MsgGetData) : bool :=
  let n := Z.of_nat (length (InvList getData)) in
  ((0 <? n)%Z && (Z.of_nat i =? Z.of_nat len - 1)%Z)
  || (n =? MaxRequestInvs (cfg d))%Z.

(** The loop of newRequest over [blocks], entered at index [i] of a slice
    of length [len], with the requests queued so far and the getdata
    message under construction ([None] is Go's nil).  An error returns at
    once, with the registrations made so far left in the map. *)
Fixpoint newRequest_loop (d : PrunedBlockDispatcher) (blockChan : ChanId)
  (len i : nat) (blocks : list Hash) (reqs : list Request)
  (getData : option MsgGetData)
  : PrunedBlockDispatcher * outcome error (list Request) :=
  match blocks with
  | [] => (d, Ok reqs)
  | block :: rest =>
      let getData := orNew getData in
      let added :=
        match blocksQueried d !! block with
        | None => AddInvVect getData (NewInvVect InvTypeBlock block)
        | Some _ => Ok getData
        end in
      match added with
      | Err e => (d, Err e)
      | Panic => (d, Panic)
      | Ok getData =>
          let d := set_blocksQueried (register blockChan block) d in
          if queueNow d len i getData
          then newRequest_loop d blockChan len (S i) rest
                 (reqs ++ [{| Req := getData |}]) None
          else newRequest_loop d blockChan len (S i) rest
                 reqs (Some getData)
      end
  end.

(** newRequest: the delivery channel is the next cell of the heap, buffered
    for [length blocks] blocks. *)
Definition newRequest (d : PrunedBlockDispatcher) (blocks : list Hash)
  : PrunedBlockDispatcher * outcome error (list Request * ChanId) :=
  let blockChan := length (heap d) in
  let d := set_heap (fun h => h ++ [make_chan (length blocks)]) d in
  match newRequest_loop d blockChan (length blocks) 0 blocks [] None with
  | (d, Ok reqs) => (d, Ok (reqs, blockChan))
  | (d, Err e) => (d, Err e)
  | (d, Panic) => (d, Panic)
  end.

(** *** banPeer and handleResp *)

Definition banPeer (d : PrunedBlockDispatcher) (peer : string)
  : PrunedBlockDispatcher :=
  let d := set_bannedPeers (fun b => {[peer]} ∪ b) d in
  match currentPeers d !! peer with
  | Some p => emit [EvDisconnect (peerAddr p)] d
  | None => d
  end.

(** The scan of the request's inventory list: [true] as soon as one of its
    hashes is found in the map. *)
Fixpoint anyPending (m : gmap Hash (list ChanId)) (invs : list InvVect)
  : bool :=
  match invs with
  | [] => false
  | inv :: rest =>
      match m !! InvHash inv with
      | Some _ => true
      | None => anyPending m rest
      end
  end.

Definition noProgress : Progress :=
  {| Progressed := false; Finished := false |}.

Definition handleResp (d : PrunedBlockDispatcher) (req resp : Message)
  (peer : string) : PrunedBlockDispatcher * Progress :=
  match resp with
  | MBlock block =>
      match req with
      | MGetData getData =>
          let blockHash := BlockHash block in
          match blocksQueried d !! blockHash with
          | None => (d, noProgress)
          | Some blockChans =>
              if negb (CheckBlockSanity block (timeSource d))
              then (banPeer d peer, noProgress)
              else
                let d := set_blocksQueried (delete blockHash) d in
                let progress :=
                  {| Progressed := true;
                     Finished :=
                       negb (anyPending (blocksQueried d) (InvList getData)) |} in
                (set_fanouts (fun t => t ++ [(block, blockChans)]) d,
                 progress)
          end
      | _ => (d, noProgress)
      end
  | _ => (d, noProgress)
  end.

(** *** The fan-out goroutine *)

(** One send on a caller's channel: [None] when it cannot proceed (the
    buffer is full or the channel is nil, so the send waits; on a closed
    channel it would panic). *)
Definition send (d : PrunedBlockDispatcher) (c : ChanId) (block : MsgBlock)
  : option PrunedBlockDispatcher :=
  match heap d !! c with
  | Some ch =>
      if closed ch then None
      else if (length (buf ch) <? cap ch)%nat
      then Some (set_heap (fun h =>
             <[c := {| cap := cap ch; buf := buf ch ++ [block];
                       closed := closed ch |}]> h) d)
      else None
  | None => None
  end.


(** *** The peer pool *)

(** What the network does when one candidate is tried: NewOutboundPeer may
    refuse the address; Dial may fail; the wait for the version exchange
    ends by readiness, by the timeout or by the quit channel; and the send
    on peersConnected is taken by the work manager or loses to the quit
    channel. *)
Inductive NetOutcome :=
| NewPeerError
| DialError
| ReadyTimeout
| QuitWhileWaiting
| QuitWhilePublishing
| Published.

(** The two outcomes that pick the quit case of a select need the quit
    channel closed. *)
Definition possible (d : PrunedBlockDispatcher) (o : NetOutcome) : Prop :=
  match o with
  | QuitWhileWaiting | QuitWhilePublishing => quit d = true
  | _ => True
  end.

Inductive loop_ctl :=
| Continue
| Break
| Return (e : error).

(** First critical section of an iteration: banned or already connected. *)
Definition skipPeer (d : PrunedBlockDispatcher) (peer : GetPeerInfoResult)
  : bool :=
  bool_decide (Addr peer ∈ bannedPeers d)
  || bool_decide (is_Some (currentPeers d !! Addr peer)).

(** newQueryPeer, connectToPeer and the publication, for a candidate that
    was not skipped: the I/O done, and whether the iteration goes on to
    record the peer ([None]) or leaves the body early. *)
Definition tryPeer (d : PrunedBlockDispatcher) (peer : GetPeerInfoResult)
  (o : NetOutcome) : PrunedBlockDispatcher * option loop_ctl :=
  match o with
  | NewPeerError => (d, Some (Return (ErrQueryPeer (Addr peer))))
  | DialError => (emit [EvDial (Addr peer)] d, Some Continue)
  | ReadyTimeout =>
      (emit [EvDial (Addr peer); EvDisconnect (Addr peer)] d, Some Continue)
  | QuitWhileWaiting => (emit [EvDial (Addr peer)] d, Some Continue)
  | QuitWhilePublishing =>
      (emit [EvDial (Addr peer)] d, Some (Return ErrShuttingDown))
  | Published =>
      (emit [EvDial (Addr peer); EvPublish (Addr peer)] d, None)
  end.

(** Second critical section: record the peer, and stop at the target. *)
Definition recordPeer (d : PrunedBlockDispatcher) (queryPeer : Peer)
  : PrunedBlockDispatcher * loop_ctl :=
  let d := set_currentPeers (fun m => <[peerAddr queryPeer := queryPeer]> m) d in
  let numPeers := Z.of_nat (size (currentPeers d)) in
  if (numPeers =? NumTargetPeers (cfg d))%Z then (d, Break) else (d, Continue).

(** One iteration of the loop of connectToPeers. *)
Definition connectIter (d : PrunedBlockDispatcher) (peer : GetPeerInfoResult)
  (o : NetOutcome) : PrunedBlockDispatcher * loop_ctl :=
  if skipPeer d peer then (d, Continue)
  else
    match tryPeer d peer o with
    | (d, Some ctl) => (d, ctl)
    | (d, None) => recordPeer d {| peerAddr := Addr peer |}
    end.

(** The loop, run without interference; [net] tells what the network does
    at each position of the candidate list. *)
Fixpoint connectLoop (d : PrunedBlockDispatcher)
  (peers : list GetPeerInfoResult) (net : nat -> NetOutcome) (i : nat)
  : PrunedBlockDispatcher * outcome error unit :=
  match peers with
  | [] => (d, Ok tt)
  | peer :: rest =>
      match connectIter d peer (net i) with
      | (d, Continue) => connectLoop d rest net (S i)
      | (d, Break) => (d, Ok tt)
      | (d, Return e) => (d, Err e)
      end
  end.

(** connectToPeers, given what GetPeers returns, the permutation the
    shuffle draws and the behaviour of the network. *)
Definition connectToPeers (d : PrunedBlockDispatcher)
  (getPeers : option (list GetPeerInfoResult))
  (shuffle : list GetPeerInfoResult -> list GetPeerInfoResult)
  (net : nat -> NetOutcome)
  : PrunedBlockDispatcher * outcome error unit :=
  let d := emit [EvGetPeers] d in
  match getPeers with
  | None => (d, Err ErrGetPeers)
  | Some peers =>
      match filterPeers peers with
      | Err e => (d, Err (ErrServices e))
      | Panic => (d, Panic)
      | Ok peers => connectLoop d (shuffle peers) net 0
      end
  end.

(** The cleanup installed by connectToPeer, run by the disconnect
    observer of a peer. *)
Definition removePeer (d : PrunedBlockDispatcher) (addr : string)
  : PrunedBlockDispatcher :=
  set_currentPeers (delete addr) d.

(** Stop closes the quit channel. *)
Definition Stop (d : PrunedBlockDispatcher) : PrunedBlockDispatcher :=
  set_quit true d.

(** *** The dispatcher at run time *)

(** Where the pool task (pollPeers) stands: not yet spawned by Start; in a
    connection pass with candidates left; past the banned-or-connected
    check of a candidate, with the peer lock released and the candidate
    about to be dialed; between the publication of a peer and its
    recording; waiting on the ticker; or returned. *)
Inductive PoolTask :=
| NotStarted
| InPass (todo : list GetPeerInfoResult)
| Trying (peer : GetPeerInfoResult) (todo : list GetPeerInfoResult)
| Recording (queryPeer : Peer) (todo : list GetPeerInfoResult)
| Waiting
| Exited.

Record World := { disp : PrunedBlockDispatcher; pool : PoolTask }.

(** How a call of connectToPeers enters its loop, or returns before it. *)
Inductive pass_begins : PoolTask -> Prop :=
| pass_no_peers : pass_begins Waiting
| pass_bad_services peers e :
    filterPeers peers = Err e -> pass_begins Waiting
| pass_loop peers eligible todo :
    filterPeers peers = Ok eligible ->
    Permutation todo eligible ->
    pass_begins (InPass todo).

Definition after_ctl (ctl : loop_ctl) (todo : list GetPeerInfoResult)
  : PoolTask :=
  match ctl with
  | Continue => InPass todo
  | Break | Return _ => Waiting
  end.

(** The moves of the pool task.  Each is one stretch of pollPeers and
    connectToPeers between two points at which other goroutines can act on
    the dispatcher: the peer lock is released between the check of a
    candidate, the dial and publication, and the recording. *)
Inductive pool_step : World -> World -> Prop :=
(* Start spawns pollPeers, which begins with a connection pass. *)
| step_start d p :
    pass_begins p ->
    pool_step {| disp := d; pool := NotStarted |}
              {| disp := emit [EvGetPeers] d; pool := p |}
(* A tick with no peer needed. *)
| step_tick_idle d :
    (NumTargetPeers (cfg d) - Z.of_nat (size (currentPeers d)) <= 0)%Z ->
    pool_step {| disp := d; pool := Waiting |} {| disp := d; pool := Waiting |}
(* A tick that starts a connection pass. *)
| step_tick_pass d p :
    ~ (NumTargetPeers (cfg d) - Z.of_nat (size (currentPeers d)) <= 0)%Z ->
    pass_begins p ->
    pool_step {| disp := d; pool := Waiting |}
              {| disp := emit [EvGetPeers] d; pool := p |}
(* The check of a candidate, under the peer lock: skipped, or kept. *)
| step_skip d peer todo :
    skipPeer d peer = true ->
    pool_step {| disp := d; pool := InPass (peer :: todo) |}
              {| disp := d; pool := InPass todo |}
| step_check d peer todo :
    skipPeer d peer = false ->
    pool_step {| disp := d; pool := InPass (peer :: todo) |}
              {| disp := d; pool := Trying peer todo |}
(* The candidate is configured, dialed and published, or fails on the way. *)
| step_try_fail d peer todo o d' ctl :
    possible d o ->
    tryPeer d peer o = (d', Some ctl) ->
    pool_step {| disp := d; pool := Trying peer todo |}
              {| disp := d'; pool := after_ctl ctl todo |}
| step_try_publish d peer todo o d' :
    possible d o ->
    tryPeer d peer o = (d', None) ->
    pool_step {| disp := d; pool := Trying peer todo |}
              {| disp := d';
                 pool := Recording {| peerAddr := Addr peer |} todo |}
(* The published peer is recorded, under the peer lock again. *)
| step_record d queryPeer todo d' ctl :
    recordPeer d queryPeer = (d', ctl) ->
    pool_step {| disp := d; pool := Recording queryPeer todo |}
              {| disp := d'; pool := after_ctl ctl todo |}
| step_pass_done d :
    pool_step {| disp := d; pool := InPass [] |}
              {| disp := d; pool := Waiting |}
(* pollPeers returns once the quit channel is closed. *)
| step_pool_quit d :
    quit d = true ->
    pool_step {| disp := d; pool := Waiting |} {| disp := d; pool := Exited |}.

(** The moves of the dispatcher and of the goroutines around it. *)
Inductive step : World -> World -> Prop :=
(* The pool task moves. *)
| step_pool w w' :
    pool_step w w' -> step w w'
(* A peer's disconnect observer runs its cleanup. *)
| step_disconnected d p addr :
    step {| disp := d; pool := p |}
         {| disp := removePeer d addr; pool := p |}
(* A peer's version message adds a time sample. *)
| step_time_sample d p t :
    step {| disp := d; pool := p |}
         {| disp := set_timeSource t d; pool := p |}
(* Query and the work manager's calls of the response handler. *)
| step_query d p blocks :
    step {| disp := d; pool := p |}
         {| disp := fst (newRequest d blocks); pool := p |}
| step_resp d p req resp peer :
    step {| disp := d; pool := p |}
         {| disp := fst (handleResp d req resp peer); pool := p |}
(* A fan-out goroutine serves its next channel, finishes, or gives up on
   the quit channel. *)
| step_fanout_send d p k block c rest d' :
    fanouts d !! k = Some (block, c :: rest) ->
    send d c block = Some d' ->
    step {| disp := d; pool := p |}
         {| disp := set_fanouts (fun t => <[k := (block, rest)]> t) d';
            pool := p |}
| step_fanout_done d p k block :
    fanouts d !! k = Some (block, []) ->
    step {| disp := d; pool := p |}
         {| disp := set_fanouts (fun t => take k t ++ drop (S k) t) d;
            pool := p |}
| step_fanout_quit d p k task :
    quit d = true ->
    fanouts d !! k = Some task ->
    step {| disp := d; pool := p |}
         {| disp := set_fanouts (fun t => take k t ++ drop (S k) t) d;
            pool := p |}
(* Stop. *)
| step_stop d p :
    quit d = false ->
    step {| disp := d; pool := p |} {| disp := Stop d; pool := p |}.

(** The worlds a dispatcher made by NewPrunedBlockDispatcher can reach. *)
Inductive reachable (c : PrunedBlockDispatcherConfig) : World -> Prop :=
| reach_new d :
    NewPrunedBlockDispatcher c = Ok d ->
    reachable c {| disp := d; pool := NotStarted |}
| reach_step w w' :
    reachable c w -> step w w' -> reachable c w'.

(** *** Two invariants of the run *)

(** The peer pool: the config is the one the dispatcher was made with, its
    target is at least one, the connected map has at most that many
    entries, and it has fewer while a connection pass is under way (none
    before Start). *)
Definition pool_inv (c : PrunedBlockDispatcherConfig) (w : World) : Prop :=
  cfg (disp w) = c /\
  (1 <= NumTargetPeers c)%Z /\
  (Z.of_nat (size (currentPeers (disp w))) <= NumTargetPeers c)%Z /\
  match pool w with
  | NotStarted => size (currentPeers (disp w)) = 0%nat
  | InPass _ | Trying _ _ | Recording _ _ =>
      (Z.of_nat (size (currentPeers (disp w))) < NumTargetPeers c)%Z
  | Waiting | Exited => True
  end.

(** Every channel handed to a caller is open. *)
Definition all_open (d : PrunedBlockDispatcher) : Prop :=
  forall id ch, heap d !! id = Some ch -> closed ch = false.

(** *** The words of the batching rule *)

(** The hashes of [blocks] that are not pending when their turn comes,
    given the set [pending] of hashes in the map at the start: each hash
    is pending from its first occurrence on. *)
Fixpoint notPending (pending : gset Hash) (blocks : list Hash) : list Hash :=
  match blocks with
  | [] => []
  | h :: rest =>
      if decide (h ∈ pending) then notPending pending rest
      else h :: notPending ({[h]} ∪ pending) rest
  end.

Definition ceil_div (a b : Z) : Z := ((a + b - 1) / b)%Z.

(** The pending map after a caller's channel has been registered under each
    hash of [blocks] in turn. *)
Fixpoint registerAll (blockChan : ChanId) (blocks : list Hash)
  (m : gmap Hash (list ChanId)) : gmap Hash (list ChanId) :=
  match blocks with
  | [] => m
  | h :: rest => registerAll blockChan rest (register blockChan h m)
  end.

(** The inventory entries that ask for the hash [h]. *)
Definition entries_for (h : Hash) (invs : list InvVect) : list InvVect :=
  List.filter (fun iv => N.eqb (InvHash iv) h) invs.

Definition block_inv (h : Hash) : InvVect := NewInvVect InvTypeBlock h.

Definition invs_of (reqs : list Request) : list InvVect :=
  concat (map (fun r => InvList (Req r)) reqs).
End Dispatcher.

(** ** A small world to run the dispatcher in *)

Module Sim.
(** A block is its hash together with the verdict of the sanity check; the
    time source carries nothing; MaxInvPerMsg is wire's 50000. *)
Definition collaborators : Collaborators :=
  {| MsgBlock := N * bool;
     MedianTimeSource := unit;
     NewMedianTime := tt;
     BlockHash := fst;
     CheckBlockSanity := fun block _ => snd block;
     MaxInvPerMsg := 50000 |}.

#[local] Existing Instance collaborators.

(** The dispatcher NewPrunedBlockDispatcher makes for a target of
    [target] peers and [maxInvs] entries per getdata message. *)
Definition fresh (target maxInvs : Z) : PrunedBlockDispatcher :=
  {| cfg := {| NumTargetPeers := target; MaxRequestInvs := maxInvs |};
     blocksQueried := ∅; currentPeers := ∅; bannedPeers := ∅;
     timeSource := tt; quit := false; heap := []; fanouts := []; io := [] |}.
(** A run: Start begins a connection pass, the first candidate of scenario
    S1 completes its handshake and is published, then recorded; a caller
    asks for block 5; a peer answers. *)
Definition config : PrunedBlockDispatcherConfig :=
  {| NumTargetPeers := 1; MaxRequestInvs := 2 |}.
Definition addr1 : string := Addr S1.full.
Definition started : PrunedBlockDispatcher := emit [EvGetPeers] (fresh 1 2).
Definition published : PrunedBlockDispatcher :=
  fst (tryPeer started S1.full Published).
Definition connected : PrunedBlockDispatcher :=
  fst (recordPeer published {| peerAddr := addr1 |}).
Definition asked : PrunedBlockDispatcher := fst (newRequest connected [5%N]).

Definition getdata5 : Message := MGetData {| InvList := [block_inv 5] |}.
Definition good_block : MsgBlock := (5%N, true).
Definition bad_block : MsgBlock := (5%N, false).
Definition stray_block : MsgBlock := (9%N, true).

Definition answered : PrunedBlockDispatcher :=
  fst (handleResp asked getdata5 (MBlock good_block) addr1).
Definition delivered : PrunedBlockDispatcher :=
  match send answered 0 good_block with
  | Some d => set_fanouts (fun t => <[0%nat := (good_block, [])]> t) d
  | None => answered
  end.
Definition rejected : PrunedBlockDispatcher :=
  fst (handleResp asked getdata5 (MBlock bad_block) addr1).
End Sim.

(** ** Proof steps used more than once *)

(** Rewrites the config of a dispatcher whose registry alone has changed
    into the config of the dispatcher it came from. *)
Ltac norm_cfg :=
  repeat match goal with
         | E : cfg ?d1 = cfg ?d |- context [cfg ?d1] => rewrite E
         | E : cfg ?d1 = cfg ?d, H : context [cfg ?d1] |- _ =>
             lazymatch H with E => fail | _ => rewrite E in H end
         end.


(** ** Query, the digits of a Services field, and what is owed to a channel *)

(** Whether every character of a string is a hexadecimal digit. *)
Fixpoint all_hex (s : string) : bool :=
  match s with
  | EmptyString => true
  | String c rest =>
      match hex.fromHexChar c with
      | Some _ => all_hex rest
      | None => false
      end
  end.

Section Owed.
Context `{Collaborators}.

(** The error channel Query returns: nil; a buffered channel that holds the
    error of newRequest; or the channel the work manager's Query returns for
    the requests it was given. *)
Inductive ErrChan :=
| NilErrChan
| FailedWith (e : error)
| OfWorkManager (reqs : list Request).

(** Query: the block channel ([None] is nil) and the error channel; [None]
    as a whole stands for a panic of newRequest. *)
Definition Query (d : PrunedBlockDispatcher) (blocks : list Hash)
  : PrunedBlockDispatcher * option (option ChanId * ErrChan) :=
  match newRequest d blocks with
  | (d, Err err) => (d, Some (None, FailedWith err))
  | (d, Panic) => (d, None)
  | (d, Ok (reqs, blockChan)) =>
      let errChan :=
        if (0 <? length reqs)%nat then OfWorkManager reqs else NilErrChan in
      (d, Some (Some blockChan, errChan))
  end.

(** How many sends a channel is still owed: once for each time it stands in
    a list of the pending map, and once for each time it stands in the list
    a fan-out goroutine has yet to serve. *)
Definition pending_count (c : ChanId) (m : gmap Hash (list ChanId)) : nat :=
  map_fold (fun _ chans n => (count_occ Nat.eq_dec chans c + n)%nat) 0%nat m.

Fixpoint fanout_count (c : ChanId) (tasks : list (MsgBlock * list ChanId))
  : nat :=
  match tasks with
  | [] => 0
  | task :: rest =>
      (count_occ Nat.eq_dec (snd task) c + fanout_count c rest)%nat
  end.

Definition owed (c : ChanId) (d : PrunedBlockDispatcher) : nat :=
  (pending_count c (blocksQueried d) + fanout_count c (fanouts d))%nat.

(** Every channel has room for what it is owed, and nothing is owed to a
    channel that was never made. *)
Definition room_inv (d : PrunedBlockDispatcher) : Prop :=
  forall c,
    match heap d !! c with
    | Some ch => (length (buf ch) + owed c d <= cap ch)%nat
    | None => owed c d = 0%nat
    end.

(** What a run of the pool task's moves alone, from [w] to [w'] with the
    I/O [evs], may do: it leaves the config, the registry, the channels, the
    ban set, the time source and the quit channel alone; it keeps the
    entries of the connected map and adds only peers it has published; it
    dials only addresses that were neither banned nor connected in [w]; and
    a candidate it is about to dial, or a peer it is about to record, is not
    in the connected map. *)
Definition pool_footprint (w w' : World) (evs : list Event) : Prop :=
  cfg (disp w') = cfg (disp w) /\
  blocksQueried (disp w') = blocksQueried (disp w) /\
  bannedPeers (disp w') = bannedPeers (disp w) /\
  timeSource (disp w') = timeSource (disp w) /\
  heap (disp w') = heap (disp w) /\
  fanouts (disp w') = fanouts (disp w) /\
  quit (disp w') = quit (disp w) /\
  io (disp w') = io (disp w) ++ evs /\
  (forall a p, currentPeers (disp w) !! a = Some p ->
               currentPeers (disp w') !! a = Some p) /\
  (forall a, is_Some (currentPeers (disp w') !! a) ->
             is_Some (currentPeers (disp w) !! a) \/ In (EvPublish a) evs) /\
  (forall a, In (EvDial a) evs ->
             (a ∉ bannedPeers (disp w)) /\
             currentPeers (disp w) !! a = None) /\
  match pool w' with
  | Trying peer _ =>
      (Addr peer ∉ bannedPeers (disp w)) /\
      currentPeers (disp w') !! Addr peer = None
  | Recording queryPeer _ =>
      currentPeers (disp w') !! peerAddr queryPeer = None /\
      In (EvPublish (peerAddr queryPeer)) evs
  | _ => True
  end.

(** The pool task stands between two connection attempts. *)
Definition between_attempts (p : PoolTask) : Prop :=
  match p with
  | Trying _ _ | Recording _ _ => False
  | _ => True
  end.

(** Every peer in the connected map has been published to the work manager,
    and so has the peer the pool task is about to record. *)
Definition published_inv (w : World) : Prop :=
  (forall a, is_Some (currentPeers (disp w) !! a) ->
             In (EvPublish a) (io (disp w))) /\
  match pool w with
  | Recording queryPeer _ => In (EvPublish (peerAddr queryPeer)) (io (disp w))
  | _ => True
  end.

(** No hash is pending without a waiter. *)
Definition waiters_inv (d : PrunedBlockDispatcher) : Prop :=
  forall h blockChans,
    blocksQueried d !! h = Some blockChans -> blockChans <> [].

End Owed.

(** ** Two more small worlds *)

(** A wire protocol whose messages hold one inventory entry at most, and a
    dispatcher for it whose MaxRequestInvs was left at 0. *)
Module Tiny.
Definition collaborators : Collaborators :=
  {| MsgBlock := N * bool;
     MedianTimeSource := unit;
     NewMedianTime := tt;
     BlockHash := fst;
     CheckBlockSanity := fun block _ => snd block;
     MaxInvPerMsg := 1 |}.

#[local] Existing Instance collaborators.

Definition fresh : PrunedBlockDispatcher :=
  {| cfg := {| NumTargetPeers := 1; MaxRequestInvs := 0 |};
     blocksQueried := ∅; currentPeers := ∅; bannedPeers := ∅;
     timeSource := tt; quit := false; heap := []; fanouts := []; io := [] |}.
End Tiny.

(** The run of [Sim], continued: the peer that sent the bad block has been
    banned and its disconnect cleanup has run; the next tick finds the same
    candidate again. *)
Module Later.
#[local] Existing Instance Sim.collaborators.

Definition cleaned : PrunedBlockDispatcher :=
  removePeer Sim.rejected Sim.addr1.
Definition polled : PrunedBlockDispatcher := emit [EvGetPeers] cleaned.

Definition three : list GetPeerInfoResult :=
  map (fun a => {| Addr := a; Services := "0000000000000409" |})
    ["a:1"; "b:1"; "c:1"].
End Later.

(** * Proofs *)

(** ** Hex digits and bytes *)

Lemma fromHexChar_range c v :
  hex.fromHexChar c = Some v -> (0 <= v < 16)%Z.
Proof.
  unfold hex.fromHexChar.
  repeat case_match; intros [= <-]; lia.
Qed.

Lemma lor_high x y k :
  (0 <= k)%Z -> (0 <= x < 2 ^ k)%Z ->
  Z.lor x (y * 2 ^ k) = (x + y * 2 ^ k)%Z.
Proof.
  intros Hk Hx.
  assert (Hl : Z.land x (y * 2 ^ k) = 0%Z).
  { apply Z.bits_inj'. intros n Hn.
    rewrite Z.land_spec, Z.bits_0.
    destruct (Z.lt_ge_cases n k) as [Hlt | Hge].
    - rewrite Z.mul_pow2_bits_low by lia. apply andb_false_r.
    - rewrite <- (Z.mod_small x (2 ^ k)) by lia.
      rewrite Z.mod_pow2_bits_high by lia. reflexivity. }
  rewrite <- Z.lxor_lor by exact Hl.
  symmetry. apply Z.add_nocarry_lxor. exact Hl.
Qed.

Lemma hex_byte a b :
  (0 <= a < 16)%Z -> (0 <= b < 16)%Z ->
  Z.lor (Z.shiftl a 4) b = (a * 16 + b)%Z.
Proof.
  intros Ha Hb. rewrite Z.shiftl_mul_pow2 by lia.
  rewrite Z.lor_comm. rewrite (lor_high b a 4) by lia. lia.
Qed.

Lemma DecodeString_bytes s :
  Forall (fun b => (0 <= b < 256)%Z) (fst (hex.DecodeString s)).
Proof.
  assert (Hgen : forall n s, (String.length s <= n)%nat ->
            Forall (fun b => (0 <= b < 256)%Z) (fst (hex.DecodeString s))).
  { clear s. induction n as [|n IH]; intros s Hlen.
    - destruct s; [constructor | simpl in Hlen; lia].
    - destruct s as [|p [|q rest]]; simpl.
      + constructor.
      + destruct (hex.fromHexChar p); constructor.
      + destruct (hex.fromHexChar p) as [a|] eqn:Ea; [|constructor].
        destruct (hex.fromHexChar q) as [b|] eqn:Eb; [|constructor].
        specialize (IH rest). simpl in Hlen.
        destruct (hex.DecodeString rest) as [bs e]. simpl in *.
        constructor; [|apply IH; lia].
        apply fromHexChar_range in Ea, Eb.
        rewrite hex_byte by lia. lia. }
  apply (Hgen (String.length s)). lia.
Qed.

(** On eight bytes the 64-bit read is the big-endian number. *)
Lemma Uint64_be_value bs :
  Forall (fun b => (0 <= b < 256)%Z) bs -> length bs = 8%nat ->
  BigEndian.Uint64 bs = Some (be_value bs).
Proof.
  intros Hb Hlen.
  destruct bs as [|b0 [|b1 [|b2 [|b3 [|b4 [|b5 [|b6 [|b7 [|? ?]]]]]]]]];
    try discriminate Hlen.
  repeat match goal with
         | H : Forall _ (_ :: _) |- _ => apply Forall_cons in H as [? H]
         end.
  unfold BigEndian.Uint64, be_value. simpl fold_left. f_equal.
  rewrite !Z.shiftl_mul_pow2 by lia.
  rewrite (lor_high (b1 * 2 ^ 48) b0 56) by lia.
  replace (b1 * 2 ^ 48 + b0 * 2 ^ 56)%Z
    with ((b1 + b0 * 2 ^ 8) * 2 ^ 48)%Z by lia.
  rewrite (lor_high (b2 * 2 ^ 40) _ 48) by lia.
  replace (b2 * 2 ^ 40 + (b1 + b0 * 2 ^ 8) * 2 ^ 48)%Z
    with ((b2 + b1 * 2 ^ 8 + b0 * 2 ^ 16) * 2 ^ 40)%Z by lia.
  rewrite (lor_high (b3 * 2 ^ 32) _ 40) by lia.
  replace (b3 * 2 ^ 32 + (b2 + b1 * 2 ^ 8 + b0 * 2 ^ 16) * 2 ^ 40)%Z
    with ((b3 + b2 * 2 ^ 8 + b1 * 2 ^ 16 + b0 * 2 ^ 24) * 2 ^ 32)%Z by lia.
  rewrite (lor_high (b4 * 2 ^ 24) _ 32) by lia.
  replace (b4 * 2 ^ 24
           + (b3 + b2 * 2 ^ 8 + b1 * 2 ^ 16 + b0 * 2 ^ 24) * 2 ^ 32)%Z
    with ((b4 + b3 * 2 ^ 8 + b2 * 2 ^ 16 + b1 * 2 ^ 24 + b0 * 2 ^ 32)
          * 2 ^ 24)%Z by lia.
  rewrite (lor_high (b5 * 2 ^ 16) _ 24) by lia.
  replace (b5 * 2 ^ 16
           + (b4 + b3 * 2 ^ 8 + b2 * 2 ^ 16 + b1 * 2 ^ 24 + b0 * 2 ^ 32)
             * 2 ^ 24)%Z
    with ((b5 + b4 * 2 ^ 8 + b3 * 2 ^ 16 + b2 * 2 ^ 24 + b1 * 2 ^ 32
           + b0 * 2 ^ 40) * 2 ^ 16)%Z by lia.
  rewrite (lor_high (b6 * 2 ^ 8) _ 16) by lia.
  replace (b6 * 2 ^ 8
           + (b5 + b4 * 2 ^ 8 + b3 * 2 ^ 16 + b2 * 2 ^ 24 + b1 * 2 ^ 32
              + b0 * 2 ^ 40) * 2 ^ 16)%Z
    with ((b6 + b5 * 2 ^ 8 + b4 * 2 ^ 16 + b3 * 2 ^ 24 + b2 * 2 ^ 32
           + b1 * 2 ^ 40 + b0 * 2 ^ 48) * 2 ^ 8)%Z by lia.
  rewrite (lor_high b7 _ 8) by lia.
  lia.
Qed.

(** ** Service bits *)

Lemma land_mask s m :
  Z.land s m = m <->
  (forall n, (0 <= n)%Z -> Z.testbit m n = true -> Z.testbit s n = true).
Proof.
  split.
  - intros Hm n Hn Hbit. rewrite <- Hm in Hbit.
    rewrite Z.land_spec in Hbit. apply andb_true_iff in Hbit. tauto.
  - intros Hbits. apply Z.bits_inj'. intros n Hn.
    rewrite Z.land_spec. specialize (Hbits n Hn).
    destruct (Z.testbit m n).
    + rewrite Hbits by reflexivity. reflexivity.
    + apply andb_false_r.
Qed.

Lemma required_bits s :
  (Z.land s requiredServices =? requiredServices)%Z
  = Z.testbit s 0 && Z.testbit s 3.
Proof.
  change requiredServices with (Z.lor (2 ^ 0) (2 ^ 3)).
  apply eq_true_iff_eq. rewrite Z.eqb_eq, land_mask, andb_true_iff.
  split.
  - intros Hbits. split; apply Hbits; try lia;
      rewrite Z.lor_spec, !Z.pow2_bits_eqb by lia; reflexivity.
  - intros [H0 H3] n Hn. rewrite Z.lor_spec, !Z.pow2_bits_eqb by lia.
    intros Hbit. apply orb_true_iff in Hbit as [E | E];
      apply Z.eqb_eq in E; subst n; assumption.
Qed.

Lemma pruned_bit s :
  (Z.land s prunedNodeService =? prunedNodeService)%Z = Z.testbit s 11.
Proof.
  change prunedNodeService with (2 ^ 11)%Z.
  apply eq_true_iff_eq. rewrite Z.eqb_eq, land_mask.
  split.
  - intros Hbits. apply Hbits; [lia|]. rewrite Z.pow2_bits_eqb by lia.
    reflexivity.
  - intros H11 n Hn. rewrite Z.pow2_bits_eqb by lia.
    intros E. apply Z.eqb_eq in E. subst n. assumption.
Qed.

Lemma eligible_flagsb_spec s :
  eligible_flagsb s = true <-> eligible_flags s.
Proof.
  unfold eligible_flagsb, eligible_flags.
  rewrite !andb_true_iff, negb_true_iff. tauto.
Qed.

(** ** filterPeers *)

Lemma readable_read p :
  readable p -> exists s, services_read p = Some s.
Proof.
  intros [_ Hlen]. unfold services_read.
  destruct (fst (hex.DecodeString (Services p)))
    as [|b0 [|b1 [|b2 [|b3 [|b4 [|b5 [|b6 [|b7 ?]]]]]]]];
    simpl in Hlen; try lia.
  eexists. reflexivity.
Qed.

Lemma short_read p :
  short_flags p -> services_read p = None.
Proof.
  intros [_ Hlen]. unfold services_read.
  destruct (fst (hex.DecodeString (Services p)))
    as [|b0 [|b1 [|b2 [|b3 [|b4 [|b5 [|b6 [|b7 ?]]]]]]]];
    simpl in Hlen; try lia; reflexivity.
Qed.

Lemma read_long p s :
  snd (hex.DecodeString (Services p)) = None ->
  services_read p = Some s -> readable p.
Proof.
  intros Hv Hs. split; [exact Hv|]. unfold services_read in Hs.
  destruct (fst (hex.DecodeString (Services p)))
    as [|b0 [|b1 [|b2 [|b3 [|b4 [|b5 [|b6 [|b7 ?]]]]]]]];
    try discriminate Hs.
  simpl. lia.
Qed.

Lemma wellFormed_read p :
  wellFormed p -> services_read p = Some (flags_of p).
Proof.
  intros [_ Hlen]. unfold services_read, flags_of.
  apply Uint64_be_value; [apply DecodeString_bytes | exact Hlen].
Qed.

Lemma wellFormed_readable p : wellFormed p -> readable p.
Proof. intros [Hv Hlen]. split; [exact Hv | lia]. Qed.

Lemma filterPeers_loop_cons p rest acc :
  readable p ->
  filterPeers_loop (p :: rest) acc
  = filterPeers_loop rest (acc ++ (if keeps p then [p] else [])).
Proof.
  intros Hp. destruct (readable_read p Hp) as [s Hs].
  destruct Hp as [Hv _]. unfold keeps. rewrite Hs.
  unfold services_read in Hs. cbn [filterPeers_loop].
  destruct (hex.DecodeString (Services p)) as [raw e].
  cbn [fst snd] in Hv, Hs. subst e. rewrite Hs.
  rewrite required_bits, pruned_bit. unfold eligible_flagsb.
  destruct (Z.testbit s 0), (Z.testbit s 3), (Z.testbit s 11);
    cbn [negb andb]; rewrite ?app_nil_r; reflexivity.
Qed.

Lemma filterPeers_loop_stops pre rest acc :
  Forall readable pre ->
  filterPeers_loop (pre ++ rest) acc
  = filterPeers_loop rest (acc ++ List.filter keeps pre).
Proof.
  intros Hall. revert acc.
  induction Hall as [|q pre Hq _ IH]; intros acc.
  - cbn [List.filter app]. rewrite app_nil_r. reflexivity.
  - change ((q :: pre) ++ rest) with (q :: (pre ++ rest)).
    rewrite filterPeers_loop_cons by exact Hq.
    rewrite IH. cbn [List.filter].
    destruct (keeps q); rewrite <- app_assoc; reflexivity.
Qed.

Lemma filterPeers_loop_readable peers acc :
  Forall readable peers ->
  filterPeers_loop peers acc = Ok (acc ++ List.filter keeps peers).
Proof.
  intros Hall. rewrite <- (app_nil_r peers) at 1.
  rewrite filterPeers_loop_stops by exact Hall. reflexivity.
Qed.

Lemma filterPeers_Ok_readable peers acc :
  is_Ok (filterPeers_loop peers acc) -> Forall readable peers.
Proof.
  revert acc. induction peers as [|p peers IH]; intros acc Hok.
  - constructor.
  - simpl in Hok.
    destruct (hex.DecodeString (Services p)) as [raw e] eqn:Ed.
    destruct e as [e|]; [contradiction|].
    destruct (BigEndian.Uint64 raw) as [s|] eqn:Es; [|contradiction].
    constructor.
    + apply (read_long p s); unfold services_read; rewrite Ed; auto.
    + repeat case_match; eapply IH; eassumption.
Qed.

Example S1_filter : filterPeers S1.candidates = Ok [S1.full].
Proof. vm_compute. reflexivity. Qed.

Example S1_short_panics :
  filterPeers [S1.full; S1.short; S1.network_only] = Panic.
Proof. vm_compute. reflexivity. Qed.

Example S1_not_hex_errors :
  filterPeers [S1.full; S1.not_hex; S1.network_only]
  = Err (hex.InvalidByteError "g").
Proof. vm_compute. reflexivity. Qed.

(** C4: on descriptors whose Services field is well-formed hex for eight
    bytes, filterPeers returns, in input order, exactly the descriptors whose
    big-endian flag value has the NODE_NETWORK bit (0) and the NODE_WITNESS
    bit (3) set and the NODE_PRUNED bit (11) clear. *)
Theorem filterPeers_eligibility (peers : list GetPeerInfoResult) :
  Forall wellFormed peers ->
  exists eligible,
    filterPeers peers = Ok eligible /\
    eligible = List.filter (fun p => eligible_flagsb (flags_of p)) peers /\
    forall p, In p eligible <-> In p peers /\ eligible_flags (flags_of p).
Proof.
  intros Hwf.
  assert (Hfilter : List.filter keeps peers
                    = List.filter (fun p => eligible_flagsb (flags_of p)) peers).
  { apply List.filter_ext_in. intros p Hp.
    rewrite Forall_forall in Hwf. unfold keeps.
    rewrite (wellFormed_read p); [reflexivity|].
    apply Hwf. apply list_elem_of_In. exact Hp. }
  eexists. split; [|split].
  - unfold filterPeers. rewrite filterPeers_loop_readable.
    + cbn [app]. rewrite Hfilter. reflexivity.
    + eapply Forall_impl; [exact Hwf | exact wellFormed_readable].
  - reflexivity.
  - intros p. rewrite List.filter_In, eligible_flagsb_spec. reflexivity.
Qed.

Lemma filterPeers_eligibility_witness :
  Forall wellFormed S1.candidates /\
  exists eligible,
    filterPeers S1.candidates = Ok eligible /\
    eligible
    = List.filter (fun p => eligible_flagsb (flags_of p)) S1.candidates /\
    forall p, In p eligible <->
              In p S1.candidates /\ eligible_flags (flags_of p).
Proof.
  assert (Hwf : Forall wellFormed S1.candidates).
  { repeat (constructor; [split; vm_compute; reflexivity|]). constructor. }
  split; [exact Hwf | exact (filterPeers_eligibility S1.candidates Hwf)].
Defined.

Section Pool.
Context `{Collaborators}.

Lemma filterPeers_short pre p rest :
  Forall readable pre -> short_flags p ->
  filterPeers (pre ++ p :: rest) = Panic.
Proof.
  intros Hpre Hshort. unfold filterPeers.
  rewrite filterPeers_loop_stops by exact Hpre.
  pose proof (short_read p Hshort) as Hread. destruct Hshort as [Hv _].
  unfold services_read in Hread. cbn [filterPeers_loop].
  destruct (hex.DecodeString (Services p)) as [raw e].
  cbn [fst snd] in Hv, Hread. subst e. rewrite Hread. reflexivity.
Qed.

Lemma filterPeers_malformed pre p rest e :
  Forall readable pre -> snd (hex.DecodeString (Services p)) = Some e ->
  filterPeers (pre ++ p :: rest) = Err e.
Proof.
  intros Hpre He. unfold filterPeers.
  rewrite filterPeers_loop_stops by exact Hpre. cbn [filterPeers_loop].
  destruct (hex.DecodeString (Services p)) as [raw e'].
  cbn [snd] in He. subst e'. reflexivity.
Qed.

(** C10: filterPeers returns a list only when every descriptor's Services
    field is valid hex for at least eight bytes.  At the first descriptor
    that is not, it panics in the 64-bit read if the field decodes to fewer
    than eight bytes, and returns the decoder's error if the field is not
    valid hex; connectToPeers then ends the same way, having called GetPeers
    and nothing else, whatever the other candidates are. *)
Theorem filterPeers_partial :
  (forall peers, is_Ok (filterPeers peers) <-> Forall readable peers) /\
  (forall pre p rest, Forall readable pre -> short_flags p ->
     filterPeers (pre ++ p :: rest) = Panic /\
     forall d shuffle net,
       connectToPeers d (Some (pre ++ p :: rest)) shuffle net
       = (emit [EvGetPeers] d, Panic)) /\
  (forall pre p rest, Forall readable pre -> malformed_hex p ->
     exists e,
       snd (hex.DecodeString (Services p)) = Some e /\
       filterPeers (pre ++ p :: rest) = Err e /\
       forall d shuffle net,
         connectToPeers d (Some (pre ++ p :: rest)) shuffle net
         = (emit [EvGetPeers] d, Err (ErrServices e))).
Proof.
  split; [|split].
  - intros peers. split.
    + apply filterPeers_Ok_readable.
    + intros Hall. unfold filterPeers.
      rewrite filterPeers_loop_readable by exact Hall. exact I.
  - intros pre p rest Hpre Hshort.
    pose proof (filterPeers_short pre p rest Hpre Hshort) as Hp.
    split; [exact Hp|]. intros d shuffle net.
    unfold connectToPeers. rewrite Hp. reflexivity.
  - intros pre p rest Hpre Hbad. unfold malformed_hex in Hbad.
    destruct (snd (hex.DecodeString (Services p))) as [e|] eqn:He;
      [|congruence].
    exists e.
    pose proof (filterPeers_malformed pre p rest e Hpre He) as Hp.
    split; [reflexivity|]. split; [exact Hp|]. intros d shuffle net.
    unfold connectToPeers. rewrite Hp. reflexivity.
Qed.

End Pool.

(** ** The constructor *)

Section Facade.
Context `{Collaborators}.

(** C8: NewPrunedBlockDispatcher returns an error exactly when
    NumTargetPeers is below 1 or MaxRequestInvs is above MaxInvPerMsg;
    otherwise it returns a dispatcher holding the config, with empty maps, an
    open quit channel, and no I/O done. *)
Theorem NewPrunedBlockDispatcher_validates (c : PrunedBlockDispatcherConfig) :
  ((exists e, NewPrunedBlockDispatcher c = Err e) <->
   (NumTargetPeers c < 1)%Z \/ (MaxRequestInvs c > MaxInvPerMsg)%Z) /\
  ((1 <= NumTargetPeers c)%Z /\ (MaxRequestInvs c <= MaxInvPerMsg)%Z <->
   exists d,
     NewPrunedBlockDispatcher c = Ok d /\
     cfg d = c /\ blocksQueried d = ∅ /\ currentPeers d = ∅ /\
     bannedPeers d = ∅ /\ quit d = false /\
     heap d = [] /\ fanouts d = [] /\ io d = []).
Proof.
  unfold NewPrunedBlockDispatcher.
  destruct (NumTargetPeers c <? 1)%Z eqn:En;
    [apply Z.ltb_lt in En | apply Z.ltb_ge in En].
  - split; split.
    + intros _. left. exact En.
    + intros _. eexists. reflexivity.
    + lia.
    + intros (d & Hd & _). discriminate Hd.
  - destruct (MaxRequestInvs c >? MaxInvPerMsg)%Z eqn:Em;
      rewrite Z.gtb_ltb in Em;
      [apply Z.ltb_lt in Em | apply Z.ltb_ge in Em].
    + split; split.
      * intros _. right. lia.
      * intros _. eexists. reflexivity.
      * lia.
      * intros (d & Hd & _). discriminate Hd.
    + split; split.
      * intros [e He]. discriminate He.
      * lia.
      * intros _. eexists. split; [reflexivity|]. cbn. tauto.
      * intros _. lia.
Qed.

End Facade.

(** ** The response validator *)

Section Validator.
Context `{Collaborators}.

(** C6: a response that is not a block, a request that is not a getdata
    message, or a block whose hash is not in the pending map makes handleResp
    return {false, false} and leave the dispatcher, and so its pending map,
    its connected map and its banned set, as it was. *)
Theorem handleResp_ignores (d : PrunedBlockDispatcher) (req resp : Message)
  (peer : string) :
  (forall block, resp <> MBlock block) \/
  (forall getData, req <> MGetData getData) \/
  (exists block, resp = MBlock block /\
                 blocksQueried d !! BlockHash block = None) ->
  snd (handleResp d req resp peer)
  = {| Progressed := false; Finished := false |} /\
  blocksQueried (fst (handleResp d req resp peer)) = blocksQueried d /\
  currentPeers (fst (handleResp d req resp peer)) = currentPeers d /\
  bannedPeers (fst (handleResp d req resp peer)) = bannedPeers d /\
  fst (handleResp d req resp peer) = d.
Proof.
  intros Hcase.
  assert (Hsame : handleResp d req resp peer = (d, noProgress)).
  { unfold handleResp. destruct Hcase as [Hresp | [Hreq | Hmiss]].
    - destruct resp as [block| |]; [|reflexivity..].
      exfalso. apply (Hresp block). reflexivity.
    - destruct resp as [block| |]; [|reflexivity..].
      destruct req as [|getData|]; [reflexivity| |reflexivity].
      exfalso. apply (Hreq getData). reflexivity.
    - destruct Hmiss as (block & -> & Hnone).
      destruct req as [|getData|]; [reflexivity| |reflexivity].
      rewrite Hnone. reflexivity. }
  rewrite Hsame. cbn [fst snd]. auto.
Qed.

Lemma anyPending_false (m : gmap N (list nat)) (invs : list InvVect) :
  anyPending m invs = false <->
  forall inv, In inv invs -> m !! InvHash inv = None.
Proof.
  induction invs as [|inv invs IH]; cbn [anyPending].
  - split; [intros _ inv [] | reflexivity].
  - destruct (m !! InvHash inv) eqn:E.
    + split; [discriminate|]. intros Hall.
      specialize (Hall inv (or_introl eq_refl)). congruence.
    + rewrite IH. split.
      * intros Hall inv' [<- | Hin]; auto.
      * intros Hall inv' Hin. apply Hall. right. exact Hin.
Qed.

(** C5: for a getdata request, a response block whose hash is pending and
    which passes the sanity check is removed from the pending map, and
    handleResp returns Progressed = true with Finished = true exactly when no
    other hash of the request's inventory list is in the pending map at that
    moment. *)
Theorem handleResp_valid (d : PrunedBlockDispatcher) (getData : MsgGetData)
  (block : MsgBlock) (peer : string) (blockChans : list nat) :
  blocksQueried d !! BlockHash block = Some blockChans ->
  CheckBlockSanity block (timeSource d) = true ->
  let d' := fst (handleResp d (MGetData getData) (MBlock block) peer) in
  let progress := snd (handleResp d (MGetData getData) (MBlock block) peer) in
  blocksQueried d' = delete (BlockHash block) (blocksQueried d) /\
  blocksQueried d' !! BlockHash block = None /\
  Progressed progress = true /\
  (Finished progress = true <->
   forall inv, In inv (InvList getData) ->
               InvHash inv <> BlockHash block ->
               blocksQueried d' !! InvHash inv = None).
Proof.
  intros Hpending Hsane. unfold handleResp.
  rewrite Hpending, Hsane. cbn.
  split; [reflexivity|]. split; [apply lookup_delete_eq|].
  split; [reflexivity|].
  rewrite negb_true_iff, anyPending_false. split.
  - intros Hall inv Hin _. apply Hall. exact Hin.
  - intros Hall inv Hin.
    destruct (decide (InvHash inv = BlockHash block)) as [-> | Hne].
    + apply lookup_delete_eq.
    + apply Hall; assumption.
Qed.


End Validator.

(** ** The request registry *)

Section Registry.
Context `{Collaborators}.

Lemma invs_of_app (reqs : list Request) (g : MsgGetData) :
  invs_of (reqs ++ [{| Req := g |}]) = invs_of reqs ++ InvList g.
Proof.
  unfold invs_of. rewrite map_app, concat_app. cbn. rewrite app_nil_r.
  reflexivity.
Qed.

Lemma set_blocksQueried_id (d : PrunedBlockDispatcher) :
  set_blocksQueried (fun m => m) d = d.
Proof. destruct d. reflexivity. Qed.

Lemma set_blocksQueried_twice f g (d : PrunedBlockDispatcher) :
  set_blocksQueried f (set_blocksQueried g d)
  = set_blocksQueried (fun m => f (g m)) d.
Proof. reflexivity. Qed.

Lemma dom_register (ch : nat) (h : N) (m : gmap N (list nat)) :
  dom (register ch h m) = {[h]} ∪ dom m.
Proof. unfold register. apply dom_insert_L. Qed.

Lemma last_index (len i : nat) (t : list N) :
  (i + length (A := N) (0%N :: t) = len)%nat ->
  (Z.of_nat i =? Z.of_nat len - 1)%Z = bool_decide (t = []).
Proof.
  cbn [length]. intros Hlen. destruct t as [|h t]; cbn [length] in Hlen.
  - rewrite bool_decide_eq_true_2 by reflexivity. apply Z.eqb_eq. lia.
  - rewrite bool_decide_eq_false_2 by discriminate. apply Z.eqb_neq. lia.
Qed.

(** What a successful run of the loop has queued and registered, whatever
    the configuration. *)
Lemma newRequest_loop_content (blocks : list N) :
  forall d ch len i reqs getData d' reqs',
    newRequest_loop d ch len i blocks reqs getData = (d', Ok reqs') ->
    (i + length blocks = len)%nat ->
    (blocks = [] -> InvList (orNew getData) = []) ->
    invs_of reqs'
    = invs_of reqs ++ InvList (orNew getData)
      ++ map block_inv (notPending (dom (blocksQueried d)) blocks) /\
    d' = set_blocksQueried (registerAll ch blocks) d.
Proof.
  induction blocks as [|h t IH];
    intros d ch len i reqs getData d' reqs' Hrun Hlen Hlast.
  - cbn in Hrun. injection Hrun as <- <-.
    rewrite Hlast by reflexivity. cbn.
    rewrite !app_nil_r, set_blocksQueried_id. auto.
  - cbn [newRequest_loop] in Hrun.
    pose proof (last_index len i t Hlen) as Hidx.
    assert (Hlen' : (S i + length t = len)%nat) by (cbn in Hlen; lia).
    cbn [notPending registerAll].
    destruct (blocksQueried d !! h) as [chans|] eqn:Eh.
    + (* already pending: no entry *)
      assert (Hin : h ∈ dom (blocksQueried d))
        by (apply elem_of_dom; eauto).
      rewrite decide_True by exact Hin.
      set (d1 := set_blocksQueried (register ch h) d) in *.
      assert (Hdom : dom (blocksQueried d1) = dom (blocksQueried d)).
      { subst d1. cbn. rewrite dom_register.
        apply subseteq_union_1_L, singleton_subseteq_l, Hin. }
      destruct (queueNow d1 len i (orNew getData)) eqn:Eq.
      * apply IH in Hrun as [Hinvs ->]; [|exact Hlen'|reflexivity].
        rewrite Hinvs, invs_of_app, Hdom. cbn. rewrite <- app_assoc.
        split; reflexivity.
      * apply IH in Hrun as [Hinvs ->]; [|exact Hlen'|].
        -- rewrite Hinvs, Hdom. split; reflexivity.
        -- intros ->. cbn [orNew]. unfold queueNow in Eq.
           rewrite Hidx, bool_decide_eq_true_2 in Eq by reflexivity.
           apply orb_false_iff in Eq as [Eq _].
           rewrite andb_true_r in Eq. apply Z.ltb_ge in Eq.
           destruct (InvList (orNew getData)); [reflexivity|].
           cbn in Eq. lia.
    + (* not pending: one more entry *)
      assert (Hnin : h ∉ dom (blocksQueried d))
        by (rewrite not_elem_of_dom; exact Eh).
      rewrite decide_False by exact Hnin.
      unfold AddInvVect in Hrun.
      destruct (Z.of_nat (length (InvList (orNew getData))) + 1
                >? MaxInvPerMsg)%Z; [discriminate Hrun|].
      set (g := {| InvList := InvList (orNew getData) ++ [NewInvVect InvTypeBlock h] |}) in *.
      set (d1 := set_blocksQueried (register ch h) d) in *.
      assert (Hdom : dom (blocksQueried d1) = {[h]} ∪ dom (blocksQueried d)).
      { subst d1. cbn. apply dom_register. }
      destruct (queueNow d1 len i g) eqn:Eq.
      * apply IH in Hrun as [Hinvs ->]; [|exact Hlen'|reflexivity].
        rewrite Hinvs, invs_of_app, Hdom. cbn.
        rewrite <- !app_assoc. split; reflexivity.
      * apply IH in Hrun as [Hinvs ->]; [|exact Hlen'|].
        -- rewrite Hinvs, Hdom. cbn. rewrite <- !app_assoc.
           split; reflexivity.
        -- intros ->. exfalso. unfold queueNow in Eq.
           rewrite Hidx, bool_decide_eq_true_2 in Eq by reflexivity.
           apply orb_false_iff in Eq as [Eq _].
           rewrite andb_true_r in Eq. apply Z.ltb_ge in Eq.
           subst g. cbn in Eq. rewrite length_app in Eq. cbn in Eq. lia.
Qed.

Lemma ceil_div_add (x m : Z) :
  (0 < m)%Z -> ceil_div (m + x) m = (1 + ceil_div x m)%Z.
Proof.
  intros Hm. unfold ceil_div.
  replace (m + x + m - 1)%Z with ((x + m - 1) + 1 * m)%Z by lia.
  rewrite Z.div_add by lia. lia.
Qed.

Lemma ceil_div_one (x m : Z) :
  (0 < x <= m)%Z -> ceil_div x m = 1%Z.
Proof.
  intros Hx. unfold ceil_div.
  replace (x + m - 1)%Z with ((x - 1) + 1 * m)%Z by lia.
  rewrite Z.div_add by lia. rewrite Z.div_small by lia. reflexivity.
Qed.

Lemma ceil_div_zero (m : Z) : (0 < m)%Z -> ceil_div 0 m = 0%Z.
Proof. intros Hm. unfold ceil_div. apply Z.div_small. lia. Qed.

(** [ceil_div] is the rounded-up quotient. *)
Lemma ceil_div_spec (a m : Z) :
  (0 <= a)%Z -> (0 < m)%Z ->
  (m * (ceil_div a m - 1) < a <= m * ceil_div a m)%Z.
Proof.
  intros Ha Hm. unfold ceil_div.
  pose proof (Z.div_mod (a + m - 1) m ltac:(lia)) as Hdiv.
  pose proof (Z.mod_pos_bound (a + m - 1) m Hm) as Hmod.
  lia.
Qed.

(** With MaxRequestInvs between 1 and MaxInvPerMsg the loop always returns
    its requests: the count and the sizes of the messages queued. *)
Lemma newRequest_loop_count (blocks : list N) :
  forall d ch len i reqs getData,
    (1 <= MaxRequestInvs (cfg d) <= MaxInvPerMsg)%Z ->
    (i + length blocks = len)%nat ->
    (Z.of_nat (length (InvList (orNew getData))) < MaxRequestInvs (cfg d))%Z ->
    (blocks = [] -> InvList (orNew getData) = []) ->
    Forall (fun r => (1 <= Z.of_nat (length (InvList (Req r)))
                      <= MaxRequestInvs (cfg d))%Z) reqs ->
    exists d' reqs',
      newRequest_loop d ch len i blocks reqs getData = (d', Ok reqs') /\
      Z.of_nat (length reqs')
      = (Z.of_nat (length reqs)
         + ceil_div (Z.of_nat (length (InvList (orNew getData)))
                     + Z.of_nat (length (notPending (dom (blocksQueried d))
                                                    blocks)))
                    (MaxRequestInvs (cfg d)))%Z /\
      Forall (fun r => (1 <= Z.of_nat (length (InvList (Req r)))
                        <= MaxRequestInvs (cfg d))%Z) reqs'.
Proof.
  induction blocks as [|h t IH];
    intros d ch len i reqs getData Hcfg Hlen Hroom Hlast Hreqs.
  - exists d, reqs. split; [reflexivity|]. split; [|exact Hreqs].
    rewrite Hlast by reflexivity. cbn.
    rewrite ceil_div_zero by lia. lia.
  - cbn [newRequest_loop notPending].
    pose proof (last_index len i t Hlen) as Hidx.
    assert (Hlen' : (S i + length t = len)%nat) by (cbn in Hlen; lia).
    set (n := Z.of_nat (length (InvList (orNew getData)))) in *.
    assert (Hn : (0 <= n)%Z) by (subst n; lia).
    destruct (blocksQueried d !! h) as [chans|] eqn:Eh.
    + assert (Hin : h ∈ dom (blocksQueried d))
        by (apply elem_of_dom; eauto).
      rewrite decide_True by exact Hin.
      set (d1 := set_blocksQueried (register ch h) d) in *.
      assert (Hcfg1 : cfg d1 = cfg d) by reflexivity.
      assert (Hdom : dom (blocksQueried d1) = dom (blocksQueried d)).
      { subst d1. cbn. rewrite dom_register.
        apply subseteq_union_1_L, singleton_subseteq_l, Hin. }
      unfold queueNow. change (cfg d1) with (cfg d). fold n.
      rewrite Hidx.
      replace (n =? MaxRequestInvs (cfg d))%Z with false by (symmetry; apply Z.eqb_neq; lia).
      rewrite orb_false_r.
      destruct ((0 <? n)%Z && bool_decide (t = [])) eqn:Eq.
      * apply andb_true_iff in Eq as [Epos Et].
        apply Z.ltb_lt in Epos. apply bool_decide_eq_true in Et. subst t.
        destruct (IH d1 ch len (S i) (reqs ++ [{| Req := orNew getData |}])
                    None) as (d' & reqs' & Hrun & Hcount & Hsizes);
          [rewrite Hcfg1; exact Hcfg | exact Hlen'
          | rewrite Hcfg1; cbn; lia | reflexivity | |];
          norm_cfg.
        { apply Forall_app. split; [exact Hreqs|].
          constructor; [|constructor]. cbn. fold n. lia. }
        exists d', reqs'. split; [exact Hrun|]. split; [|exact Hsizes].
        rewrite Hcount, length_app. cbn.
        rewrite ceil_div_zero, Z.add_0_r, ceil_div_one by lia. lia.
      * destruct (IH d1 ch len (S i) reqs (Some (orNew getData)))
          as (d' & reqs' & Hrun & Hcount & Hsizes);
          [rewrite Hcfg1; exact Hcfg | exact Hlen' | rewrite Hcfg1; exact Hroom
          | | rewrite Hcfg1; exact Hreqs |];
          norm_cfg.
        { intros ->. cbn [orNew].
          rewrite bool_decide_eq_true_2, andb_true_r in Eq by reflexivity.
          apply Z.ltb_ge in Eq.
          destruct (InvList (orNew getData)); [reflexivity|].
          subst n. cbn in Eq. lia. }
        exists d', reqs'. split; [exact Hrun|]. split; [|exact Hsizes].
        rewrite Hcount, Hdom. reflexivity.
    + assert (Hnin : h ∉ dom (blocksQueried d))
        by (rewrite not_elem_of_dom; exact Eh).
      rewrite decide_False by exact Hnin.
      unfold AddInvVect. fold n.
      replace (n + 1 >? MaxInvPerMsg)%Z with false
        by (symmetry; rewrite Z.gtb_ltb; apply Z.ltb_ge; lia).
      set (g := {| InvList := InvList (orNew getData)
                              ++ [NewInvVect InvTypeBlock h] |}) in *.
      set (d1 := set_blocksQueried (register ch h) d) in *.
      assert (Hcfg1 : cfg d1 = cfg d) by reflexivity.
      assert (Hdom : dom (blocksQueried d1) = {[h]} ∪ dom (blocksQueried d)).
      { subst d1. cbn. apply dom_register. }
      assert (Hg : Z.of_nat (length (InvList g)) = (n + 1)%Z).
      { subst g n. cbn. rewrite length_app. cbn. lia. }
      unfold queueNow. change (cfg d1) with (cfg d).
      rewrite Hg, Hidx. cbn [length]. rewrite Nat2Z.inj_succ.
      destruct (((0 <? n + 1)%Z && bool_decide (t = []))
                || (n + 1 =? MaxRequestInvs (cfg d))%Z) eqn:Eq.
      * destruct (IH d1 ch len (S i) (reqs ++ [{| Req := g |}]) None)
          as (d' & reqs' & Hrun & Hcount & Hsizes);
          [rewrite Hcfg1; exact Hcfg | exact Hlen'
          | rewrite Hcfg1; cbn; lia | reflexivity | |];
          norm_cfg.
        { apply Forall_app. split; [exact Hreqs|].
          constructor; [|constructor]. cbn [Req]. rewrite Hg. lia. }
        exists d', reqs'. split; [exact Hrun|]. split; [|exact Hsizes].
        rewrite Hcount, length_app, Hdom. cbn [length orNew NewMsgGetData InvList].
        destruct (Z.eq_dec (n + 1)%Z (MaxRequestInvs (cfg d))) as [EM | NM].
        -- replace (n + Z.succ (Z.of_nat (length (notPending ({[h]} ∪ dom (blocksQueried d)) t))))%Z
             with (MaxRequestInvs (cfg d) + (0 + Z.of_nat (length (notPending ({[h]} ∪ dom (blocksQueried d)) t))))%Z
             by lia.
           rewrite ceil_div_add by lia. change (Z.of_nat 0) with 0%Z. lia.
        -- apply orb_true_iff in Eq as [Eq | Eq];
             [|apply Z.eqb_eq in Eq; contradiction].
           apply andb_true_iff in Eq as [_ Et].
           apply bool_decide_eq_true in Et. subst t. cbn.
           rewrite ceil_div_zero by lia.
           rewrite (ceil_div_one (n + Z.succ 0)%Z) by lia. lia.
      * apply orb_false_iff in Eq as [Eq EM]. apply Z.eqb_neq in EM.
        destruct (IH d1 ch len (S i) reqs (Some g))
          as (d' & reqs' & Hrun & Hcount & Hsizes);
          [rewrite Hcfg1; exact Hcfg | exact Hlen'
          | rewrite Hcfg1; cbn [orNew]; rewrite Hg; lia
          | | rewrite Hcfg1; exact Hreqs |];
          norm_cfg.
        { intros ->. exfalso.
          rewrite bool_decide_eq_true_2, andb_true_r in Eq by reflexivity.
          apply Z.ltb_ge in Eq. lia. }
        exists d', reqs'. split; [exact Hrun|]. split; [|exact Hsizes].
        rewrite Hcount, Hdom. cbn [orNew]. rewrite Hg.
        f_equal. f_equal. lia.
Qed.

Lemma newRequest_Ok (d : PrunedBlockDispatcher) (blocks : list N) d' reqs ch :
  newRequest d blocks = (d', Ok (reqs, ch)) ->
  ch = length (heap d) /\
  d' = set_blocksQueried (registerAll ch blocks)
         (set_heap (fun hp => hp ++ [make_chan (length blocks)]) d) /\
  invs_of reqs = map block_inv (notPending (dom (blocksQueried d)) blocks).
Proof.
  unfold newRequest. intros Hrun.
  destruct (newRequest_loop _ _ _ _ _ _ _) as [d1 [reqs1 | e |]] eqn:Eloop;
    try discriminate Hrun.
  injection Hrun as -> -> <-.
  apply newRequest_loop_content in Eloop as [Hinvs ->];
    [|reflexivity|reflexivity].
  split; [reflexivity|]. split; [reflexivity|]. exact Hinvs.
Qed.

(** C3, as the code has it: with MaxRequestInvs between 1 and MaxInvPerMsg,
    newRequest returns its requests; their number is the rounded-up quotient
    of L' by MaxRequestInvs, where L' counts the hashes not pending when
    their turn came; no inventory list is longer than MaxRequestInvs; and
    the entries, read across the requests, are those hashes in input
    order. *)
Theorem newRequest_batches (d : PrunedBlockDispatcher) (blocks : list N) :
  (1 <= MaxRequestInvs (cfg d) <= MaxInvPerMsg)%Z ->
  exists d' reqs blockChan,
    newRequest d blocks = (d', Ok (reqs, blockChan)) /\
    Z.of_nat (length reqs)
    = ceil_div
        (Z.of_nat (length (notPending (dom (blocksQueried d)) blocks)))
        (MaxRequestInvs (cfg d)) /\
    Forall (fun r => (Z.of_nat (length (InvList (Req r)))
                      <= MaxRequestInvs (cfg d))%Z) reqs /\
    invs_of reqs = map block_inv (notPending (dom (blocksQueried d)) blocks).
Proof.
  intros Hcfg.
  pose (d0 := set_heap (fun hp => hp ++ [make_chan (length blocks)]) d).
  destruct (newRequest_loop_count blocks d0 (length (heap d)) (length blocks)
              0 [] None) as (d' & reqs & Hrun & Hcount & Hsizes);
    [exact Hcfg | reflexivity | cbn; lia | reflexivity | constructor |].
  assert (Hreq : newRequest d blocks = (d', Ok (reqs, length (heap d)))).
  { unfold newRequest. fold d0. rewrite Hrun. reflexivity. }
  exists d', reqs, (length (heap d)).
  split; [exact Hreq|]. split; [|split].
  - rewrite Hcount. cbn. reflexivity.
  - eapply Forall_impl; [exact Hsizes|]. cbn. intros r Hr. lia.
  - apply newRequest_Ok in Hreq. tauto.
Qed.

Lemma entries_for_blocks (h : N) (l : list N) :
  length (entries_for h (map block_inv l)) = count_occ N.eq_dec l h.
Proof.
  unfold entries_for.
  induction l as [|x l IH]; [reflexivity|]. cbn.
  destruct (N.eq_dec x h) as [-> | Hne].
  - rewrite N.eqb_refl. cbn. rewrite IH. reflexivity.
  - apply N.eqb_neq in Hne. rewrite Hne. exact IH.
Qed.

Lemma notPending_skips (h : N) (l : list N) :
  forall P : gset N, h ∈ P -> count_occ N.eq_dec (notPending P l) h = 0%nat.
Proof.
  induction l as [|x l IH]; intros P HP; [reflexivity|]. cbn.
  destruct (decide (x ∈ P)) as [Hx | Hx].
  - apply IH. exact HP.
  - cbn. destruct (N.eq_dec x h) as [-> | Hne]; [contradiction|].
    apply IH. apply elem_of_union_r. exact HP.
Qed.

Lemma notPending_once (h : N) (l : list N) :
  forall P : gset N,
    h ∉ P -> In h l -> count_occ N.eq_dec (notPending P l) h = 1%nat.
Proof.
  induction l as [|x l IH]; intros P HP Hin; [destruct Hin|]. cbn.
  destruct (decide (x ∈ P)) as [Hx | Hx].
  - destruct Hin as [-> | Hin]; [contradiction|]. apply IH; assumption.
  - cbn. destruct (N.eq_dec x h) as [-> | Hne].
    + rewrite notPending_skips; [reflexivity|].
      apply elem_of_union_l, elem_of_singleton. reflexivity.
    + destruct Hin as [-> | Hin]; [contradiction|].
      apply IH; [|exact Hin]. rewrite elem_of_union, elem_of_singleton.
      intros [-> | HhP]; [apply Hne; reflexivity | contradiction].
Qed.

Lemma register_lookup_eq (ch : nat) (h : N) (m : gmap N (list nat)) :
  register ch h m !! h = Some (default [] (m !! h) ++ [ch]).
Proof. unfold register. apply lookup_insert_eq. Qed.

Lemma register_lookup_ne (ch : nat) (x h : N) (m : gmap N (list nat)) :
  x <> h -> register ch x m !! h = m !! h.
Proof. intros Hne. unfold register. apply lookup_insert_ne. exact Hne. Qed.

Lemma registerAll_keeps (ch : nat) (h : N) (l : list N) :
  forall m : gmap N (list nat),
    default [] (registerAll ch l m !! h)
    = default [] (m !! h) ++ replicate (count_occ N.eq_dec l h) ch
    /\ (is_Some (m !! h) -> is_Some (registerAll ch l m !! h)).
Proof.
  induction l as [|x l IH]; intros m; cbn [registerAll count_occ].
  - cbn. rewrite app_nil_r. auto.
  - destruct (IH (register ch x m)) as [IHv IHs].
    destruct (N.eq_dec x h) as [-> | Hne].
    + rewrite register_lookup_eq in IHv, IHs. cbn in IHv.
      rewrite IHv, <- app_assoc. split; [reflexivity|].
      intros _. apply IHs. eauto.
    + rewrite register_lookup_ne in IHv, IHs by exact Hne. auto.
Qed.

Lemma registerAll_lookup (ch : nat) (h : N) (l : list N) :
  forall m : gmap N (list nat),
    In h l ->
    registerAll ch l m !! h
    = Some (default [] (m !! h) ++ replicate (count_occ N.eq_dec l h) ch).
Proof.
  induction l as [|x l IH]; intros m Hin; [destruct Hin|].
  destruct (registerAll_keeps ch h (x :: l) m) as [Hv Hs].
  destruct (registerAll ch (x :: l) m !! h) as [chans|] eqn:E.
  - f_equal. exact Hv.
  - exfalso. cbn [registerAll] in E.
    destruct (N.eq_dec x h) as [-> | Hne].
    + destruct (registerAll_keeps ch h l (register ch h m)) as [_ Hs'].
      rewrite register_lookup_eq in Hs'.
      destruct Hs' as [? Hs']; [eauto|]. congruence.
    + destruct Hin as [-> | Hin]; [apply Hne; reflexivity|].
      rewrite (IH _ Hin) in E. discriminate E.
Qed.




End Registry.

(** ** The dispatcher at run time *)

Section Runtime.
Context `{Collaborators}.

(** What each operation leaves alone. *)

Lemma handleResp_frame (d : PrunedBlockDispatcher) (req resp : Message)
  (peer : string) :
  cfg (fst (handleResp d req resp peer)) = cfg d /\
  currentPeers (fst (handleResp d req resp peer)) = currentPeers d /\
  heap (fst (handleResp d req resp peer)) = heap d.
Proof.
  unfold handleResp, banPeer.
  destruct resp as [block| |]; [|auto..].
  destruct req as [|getData|]; [auto| |auto].
  destruct (blocksQueried d !! BlockHash block); [|auto].
  destruct (negb (CheckBlockSanity block (timeSource d))); [|auto].
  cbn [set_bannedPeers currentPeers fst].
  destruct (currentPeers d !! peer); auto.
Qed.

Lemma newRequest_loop_frame (blocks : list N) :
  forall (d : PrunedBlockDispatcher) ch len i reqs getData,
  exists f,
    fst (newRequest_loop d ch len i blocks reqs getData)
    = set_blocksQueried f d.
Proof.
  induction blocks as [|h t IH]; intros d ch len i reqs getData.
  - exists (fun m => m). cbn. rewrite set_blocksQueried_id. reflexivity.
  - cbn [newRequest_loop].
    destruct (match blocksQueried d !! h with
              | Some _ => Ok (orNew getData)
              | None => AddInvVect (orNew getData) (NewInvVect InvTypeBlock h)
              end) as [g | e |].
    + destruct (queueNow _ len i g).
      * destruct (IH (set_blocksQueried (register ch h) d) ch len (S i)
                    (reqs ++ [{| Req := g |}]) None) as [f Hf].
        rewrite Hf. eexists. apply set_blocksQueried_twice.
      * destruct (IH (set_blocksQueried (register ch h) d) ch len (S i)
                    reqs (Some g)) as [f Hf].
        rewrite Hf. eexists. apply set_blocksQueried_twice.
    + exists (fun m => m). cbn. rewrite set_blocksQueried_id. reflexivity.
    + exists (fun m => m). cbn. rewrite set_blocksQueried_id. reflexivity.
Qed.

Lemma newRequest_frame (d : PrunedBlockDispatcher) (blocks : list N) :
  cfg (fst (newRequest d blocks)) = cfg d /\
  currentPeers (fst (newRequest d blocks)) = currentPeers d /\
  heap (fst (newRequest d blocks)) = heap d ++ [make_chan (length blocks)].
Proof.
  unfold newRequest.
  destruct (newRequest_loop_frame blocks
              (set_heap (fun hp => hp ++ [make_chan (length blocks)]) d)
              (length (heap d)) (length blocks) 0 [] None) as [f Hf].
  destruct (newRequest_loop _ _ _ _ _ _ _) as [d1 [reqs | e |]];
    cbn [fst] in *; subst d1; auto.
Qed.

Lemma tryPeer_frame (d d' : PrunedBlockDispatcher) peer o r :
  tryPeer d peer o = (d', r) ->
  cfg d' = cfg d /\ currentPeers d' = currentPeers d /\ heap d' = heap d.
Proof. destruct o; intros [= <- _]; auto. Qed.

Lemma recordPeer_frame (d d' : PrunedBlockDispatcher) queryPeer ctl :
  recordPeer d queryPeer = (d', ctl) ->
  cfg d' = cfg d /\ heap d' = heap d /\
  currentPeers d' = <[peerAddr queryPeer := queryPeer]> (currentPeers d) /\
  match ctl with
  | Break => Z.of_nat (size (currentPeers d')) = NumTargetPeers (cfg d)
  | Continue => Z.of_nat (size (currentPeers d')) <> NumTargetPeers (cfg d)
  | Return _ => False
  end.
Proof.
  unfold recordPeer. cbn [cfg set_currentPeers currentPeers].
  destruct (_ =? _)%Z eqn:E; intros [= <- <-]; cbn;
    [apply Z.eqb_eq in E | apply Z.eqb_neq in E]; auto.
Qed.

Lemma send_frame (d d' : PrunedBlockDispatcher) c block :
  send d c block = Some d' ->
  cfg d' = cfg d /\ currentPeers d' = currentPeers d /\
  exists ch,
    heap d !! c = Some ch /\ closed ch = false /\
    heap d' = <[c := {| cap := cap ch; buf := buf ch ++ [block];
                        closed := false |}]> (heap d).
Proof.
  unfold send. destruct (heap d !! c) as [ch|]; [|discriminate].
  destruct (closed ch) eqn:Ec; [discriminate|].
  destruct (_ <? _)%nat; [|discriminate].
  intros [= <-]. cbn. eauto 10.
Qed.

Lemma pass_begins_cases p :
  pass_begins p -> p = Waiting \/ exists todo, p = InPass todo.
Proof. intros [| |]; eauto. Qed.

Lemma pool_inv_same_peers c (d d' : PrunedBlockDispatcher) p :
  cfg d' = cfg d -> currentPeers d' = currentPeers d ->
  pool_inv c {| disp := d; pool := p |} ->
  pool_inv c {| disp := d'; pool := p |}.
Proof.
  unfold pool_inv. cbn. intros -> ->. tauto.
Qed.

Lemma pool_inv_pool_step c w w' :
  pool_inv c w -> pool_step w w' -> pool_inv c w'.
Proof.
  intros Hinv Hstep.
  destruct Hstep
    as [d p Hb | d Hidle | d p Hneed Hb | d peer todo Hskip
       | d peer todo Hskip
       | d peer todo o d' ctl Hposs Htry
       | d peer todo o d' Hposs Htry
       | d queryPeer todo d' ctl Hrec | d | d Hq].
  - (* Start *)
    destruct Hinv as (Hc & Ht & Hsz & Hp). cbn in *.
    unfold pool_inv. cbn. repeat split; try assumption.
    destruct (pass_begins_cases p Hb) as [-> | [todo ->]]; [exact I|]. lia.
  - (* an idle tick *)
    exact Hinv.
  - (* a tick that starts a pass *)
    destruct Hinv as (Hc & Ht & Hsz & Hp). cbn in *.
    unfold pool_inv. cbn. repeat split; try assumption.
    destruct (pass_begins_cases p Hb) as [-> | [todo ->]]; [exact I|].
    subst c. lia.
  - (* skip *)
    exact Hinv.
  - (* a candidate passes the check *)
    exact Hinv.
  - (* a candidate that fails *)
    destruct (tryPeer_frame _ _ _ _ _ Htry) as (Ec & Ep & _).
    destruct Hinv as (Hc & Ht & Hsz & Hp). cbn in *.
    unfold pool_inv. cbn. rewrite Ec, Ep. repeat split; try assumption.
    destruct ctl; cbn; auto.
  - (* a candidate that is published *)
    destruct (tryPeer_frame _ _ _ _ _ Htry) as (Ec & Ep & _).
    destruct Hinv as (Hc & Ht & Hsz & Hp). cbn in *.
    unfold pool_inv. cbn. rewrite Ec, Ep. repeat split; assumption.
  - (* the peer is recorded *)
    destruct (recordPeer_frame _ _ _ _ Hrec) as (Ec & _ & Ep & Hctl).
    destruct Hinv as (Hc & Ht & Hsz & Hp). cbn in *.
    assert (Hgrow : (size (currentPeers d') <= S (size (currentPeers d)))%nat).
    { rewrite Ep, map_size_insert.
      destruct (currentPeers d !! peerAddr queryPeer); cbn; lia. }
    unfold pool_inv. cbn. rewrite Ec. subst c.
    repeat split; try assumption; [lia|].
    destruct ctl; cbn; [lia | exact I | exact I].
  - (* the pass is over *)
    destruct Hinv as (Hc & Ht & Hsz & Hp).
    unfold pool_inv. cbn in *. tauto.
  - (* pollPeers returns *)
    destruct Hinv as (Hc & Ht & Hsz & Hp).
    unfold pool_inv. cbn in *. tauto.
Qed.

Lemma pool_inv_step c w w' :
  pool_inv c w -> step w w' -> pool_inv c w'.
Proof.
  intros Hinv Hstep.
  destruct Hstep
    as [w w' Hpool | d p addr | d p t | d p blocks | d p req resp peer
       | d p k block ch rest d' Hk Hsend | d p k block Hk
       | d p k task Hq Hk | d p Hq].
  - exact (pool_inv_pool_step c w w' Hinv Hpool).
  - (* a disconnect cleanup *)
    destruct Hinv as (Hc & Ht & Hsz & Hp). cbn in *.
    assert (Hshrink : (size (delete addr (currentPeers d))
                       <= size (currentPeers d))%nat).
    { rewrite map_size_delete.
      destruct (currentPeers d !! addr); cbn; lia. }
    unfold pool_inv. cbn. repeat split; try assumption; [lia|].
    destruct p; auto; lia.
  - (* a time sample *)
    eapply pool_inv_same_peers; [| |exact Hinv]; reflexivity.
  - (* Query *)
    destruct (newRequest_frame d blocks) as (Ec & Ep & _).
    eapply pool_inv_same_peers; [exact Ec | exact Ep | exact Hinv].
  - (* a response *)
    destruct (handleResp_frame d req resp peer) as (Ec & Ep & _).
    eapply pool_inv_same_peers; [exact Ec | exact Ep | exact Hinv].
  - (* a fan-out send *)
    destruct (send_frame _ _ _ _ Hsend) as (Ec & Ep & _).
    eapply pool_inv_same_peers; [| |exact Hinv]; cbn; assumption.
  - eapply pool_inv_same_peers; [| |exact Hinv]; reflexivity.
  - eapply pool_inv_same_peers; [| |exact Hinv]; reflexivity.
  - (* Stop *)
    eapply pool_inv_same_peers; [| |exact Hinv]; reflexivity.
Qed.

Lemma pool_inv_reachable c w : reachable c w -> pool_inv c w.
Proof.
  induction 1 as [d Hnew | w w' _ IH Hstep].
  - unfold NewPrunedBlockDispatcher in Hnew.
    destruct (NumTargetPeers c <? 1)%Z eqn:En; [discriminate|].
    destruct (MaxRequestInvs c >? MaxInvPerMsg)%Z; [discriminate|].
    injection Hnew as <-. apply Z.ltb_ge in En.
    unfold pool_inv. cbn. rewrite map_size_empty. repeat split; lia.
  - exact (pool_inv_step c w w' IH Hstep).
Qed.

(** A connection pass run without interference, entered below the target,
    ends at or below it. *)
Lemma connectLoop_within_target (peers : list GetPeerInfoResult) :
  forall (d : PrunedBlockDispatcher) net i c,
    cfg d = c ->
    (Z.of_nat (size (currentPeers d)) < NumTargetPeers c)%Z ->
    (Z.of_nat (size (currentPeers (fst (connectLoop d peers net i))))
     <= NumTargetPeers c)%Z.
Proof.
  induction peers as [|peer rest IH]; intros d net i c Hc Hbelow;
    cbn [connectLoop]; [cbn; lia|].
  unfold connectIter. destruct (skipPeer d peer).
  { apply IH; assumption. }
  destruct (tryPeer d peer (net i)) as [d1 [ctl|]] eqn:Etry;
    destruct (tryPeer_frame _ _ _ _ _ Etry) as (Ec & Ep & _).
  - destruct ctl; cbn [fst].
    + apply IH; [congruence | rewrite Ep; exact Hbelow].
    + rewrite Ep. lia.
    + rewrite Ep. lia.
  - destruct (recordPeer d1 {| peerAddr := Addr peer |}) as [d2 ctl] eqn:Erec.
    destruct (recordPeer_frame _ _ _ _ Erec) as (Ec2 & _ & Ep2 & Hctl).
    assert (Hgrow : (size (currentPeers d2) <= S (size (currentPeers d)))%nat).
    { rewrite Ep2, Ep, map_size_insert.
      destruct (currentPeers d !! _); cbn; lia. }
    rewrite Ec, Hc in Hctl.
    destruct ctl; cbn [fst]; [|lia|contradiction].
    apply IH; [congruence | lia].
Qed.

(** C7: in every world the dispatcher can reach, the connected map has at
    most NumTargetPeers entries; while a connection pass is under way it has
    fewer, so a pass runs only below the target, and recording a peer adds
    at most one entry and ends the pass when the count reaches the target. *)
Theorem connected_within_target (c : PrunedBlockDispatcherConfig) (w : World) :
  reachable c w ->
  (Z.of_nat (size (currentPeers (disp w))) <= NumTargetPeers c)%Z /\
  (forall todo, pool w = InPass todo ->
     (Z.of_nat (size (currentPeers (disp w))) < NumTargetPeers c)%Z) /\
  (forall queryPeer todo d' ctl,
     pool w = Recording queryPeer todo ->
     recordPeer (disp w) queryPeer = (d', ctl) ->
     (size (currentPeers d') <= S (size (currentPeers (disp w))))%nat /\
     (Z.of_nat (size (currentPeers d')) = NumTargetPeers c -> ctl = Break)).
Proof.
  intros Hreach. apply pool_inv_reachable in Hreach.
  destruct Hreach as (Hc & Ht & Hsz & Hp).
  split; [exact Hsz|]. split.
  - intros todo Epool. rewrite Epool in Hp. exact Hp.
  - intros queryPeer todo d' ctl Epool Hrec.
    destruct (recordPeer_frame _ _ _ _ Hrec) as (_ & _ & Ep & Hctl).
    split.
    + rewrite Ep, map_size_insert.
      destruct (currentPeers (disp w) !! peerAddr queryPeer); cbn; lia.
    + intros Hfull. rewrite Hc in Hctl.
      destruct ctl; [contradiction | reflexivity | contradiction].
Qed.

Lemma all_open_step w w' :
  step w w' ->
  (forall id ch, heap (disp w) !! id = Some ch ->
     exists ch', heap (disp w') !! id = Some ch' /\ closed ch' = closed ch) /\
  (all_open (disp w) -> all_open (disp w')).
Proof.
  assert (Hsame : forall d d' : PrunedBlockDispatcher,
            heap d' = heap d ->
            (forall id ch, heap d !! id = Some ch ->
               exists ch', heap d' !! id = Some ch' /\ closed ch' = closed ch)
            /\ (all_open d -> all_open d')).
  { intros d d' E. unfold all_open. rewrite E. eauto. }
  intros Hstep.
  destruct Hstep
    as [w w' Hpool | d p addr | d p t | d p blocks | d p req resp peer
       | d p k block c rest d' Hk Hsend | d p k block Hk
       | d p k task Hq Hk | d p Hq];
    cbn [disp]; try (apply Hsame; reflexivity).
  - (* the pool task makes and closes no channel *)
    destruct Hpool
      as [d p Hb | d Hidle | d p Hneed Hb | d peer todo Hskip
         | d peer todo Hskip
         | d peer todo o d' ctl Hposs Htry
         | d peer todo o d' Hposs Htry
         | d queryPeer todo d' ctl Hrec | d | d Hq];
      cbn [disp]; try (apply Hsame; reflexivity).
    + destruct (tryPeer_frame _ _ _ _ _ Htry) as (_ & _ & E). apply Hsame, E.
    + destruct (tryPeer_frame _ _ _ _ _ Htry) as (_ & _ & E). apply Hsame, E.
    + destruct (recordPeer_frame _ _ _ _ Hrec) as (_ & E & _).
      apply Hsame, E.
  - (* Query makes one more channel, open *)
    destruct (newRequest_frame d blocks) as (_ & _ & E).
    unfold all_open. rewrite E. split.
    + intros id ch Hid. exists ch. split; [|reflexivity].
      apply lookup_app_l_Some. exact Hid.
    + intros Hopen id ch Hid.
      apply lookup_app_Some in Hid as [Hid | [_ Hid]]; [eauto|].
      apply list_lookup_singleton_Some in Hid as [_ <-]. reflexivity.
  - destruct (handleResp_frame d req resp peer) as (_ & _ & E).
    apply Hsame, E.
  - (* a send fills the buffer and leaves the channel open *)
    destruct (send_frame _ _ _ _ Hsend) as (_ & _ & ch0 & Hc & Hopen0 & E).
    unfold all_open. cbn [heap set_fanouts]. rewrite E. split.
    + intros id ch Hid. destruct (decide (c = id)) as [<- | Hne].
      * eexists. split.
        -- apply list_lookup_insert_eq. apply lookup_lt_Some in Hc. exact Hc.
        -- cbn. congruence.
      * exists ch. rewrite list_lookup_insert_ne by exact Hne. auto.
    + intros Hopen id ch Hid. destruct (decide (c = id)) as [<- | Hne].
      * rewrite list_lookup_insert_eq in Hid
          by (apply lookup_lt_Some in Hc; exact Hc).
        injection Hid as <-. reflexivity.
      * rewrite list_lookup_insert_ne in Hid by exact Hne. eauto.
Qed.

Lemma all_open_reachable c w : reachable c w -> all_open (disp w).
Proof.
  induction 1 as [d Hnew | w w' _ IH Hstep].
  - unfold NewPrunedBlockDispatcher in Hnew.
    destruct (NumTargetPeers c <? 1)%Z; [discriminate|].
    destruct (MaxRequestInvs c >? MaxInvPerMsg)%Z; [discriminate|].
    injection Hnew as <-. intros id ch Hid. cbn in Hid.
    rewrite lookup_nil in Hid. discriminate Hid.
  - exact (proj2 (all_open_step w w' Hstep) IH).
Qed.

(** C9: a delivery channel is never closed.  In every world the dispatcher
    can reach each channel returned by Query is open, and whatever move
    comes next (a further Query, a response, a fan-out send of any block,
    the last one included, a move of the peer pool, or Stop itself, which
    closes the quit channel only) the channel is still there and open. *)
Theorem delivery_channel_stays_open (c : PrunedBlockDispatcherConfig)
  (w w' : World) (id : nat) (ch : Chan) :
  reachable c w -> step w w' ->
  heap (disp w) !! id = Some ch ->
  closed ch = false /\
  exists ch', heap (disp w') !! id = Some ch' /\ closed ch' = false.
Proof.
  intros Hreach Hstep Hid.
  pose proof (all_open_reachable c w Hreach id ch Hid) as Hopen.
  split; [exact Hopen|].
  destruct (proj1 (all_open_step w w' Hstep) id ch Hid) as (ch' & Hid' & Hc).
  exists ch'. split; [exact Hid' | congruence].
Qed.

End Runtime.

(** ** The run of [Sim] *)

Section Run.
#[local] Existing Instance Sim.collaborators.

Lemma connected_reachable :
  reachable Sim.config {| disp := Sim.connected; pool := Waiting |}.
Proof.
  eapply reach_step;
    [eapply reach_step; [eapply reach_step; [eapply reach_step|]|]|].
  - apply (reach_new Sim.config (Sim.fresh 1 2)). reflexivity.
  - apply step_pool, (step_start (Sim.fresh 1 2) (InPass [S1.full])).
    apply (pass_loop S1.candidates [S1.full] [S1.full]);
      [vm_compute; reflexivity | reflexivity].
  - apply step_pool, (step_check Sim.started S1.full []).
    vm_compute. reflexivity.
  - apply step_pool,
      (step_try_publish Sim.started S1.full [] Published Sim.published);
      [exact I | reflexivity].
  - apply step_pool,
      (step_record Sim.published {| peerAddr := Sim.addr1 |} []
         Sim.connected Break). vm_compute. reflexivity.
Qed.

Lemma answered_reachable :
  reachable Sim.config {| disp := Sim.answered; pool := Waiting |}.
Proof.
  eapply reach_step; [eapply reach_step; [exact connected_reachable|]|].
  - apply (step_query Sim.connected Waiting [5%N]).
  - apply (step_resp Sim.asked Waiting Sim.getdata5 (MBlock Sim.good_block)
             Sim.addr1).
Qed.

(** The spec's scenario S2: five hashes, two entries per message. *)
Example S2_batches :
  snd (newRequest (Sim.fresh 1 2) [1; 2; 3; 4; 5]%N)
  = Ok ([{| Req := {| InvList := [block_inv 1; block_inv 2] |} |};
         {| Req := {| InvList := [block_inv 3; block_inv 4] |} |};
         {| Req := {| InvList := [block_inv 5] |} |}], 0%nat).
Proof. vm_compute. reflexivity. Qed.

(** The spec's scenario S3: the second caller asks for [2; 3] while 2 is
    pending, and only 3 is requested. *)
Example S3_dedup :
  snd (newRequest (fst (newRequest (Sim.fresh 1 2) [1; 2]%N)) [2; 3]%N)
  = Ok ([{| Req := {| InvList := [block_inv 3] |} |}], 1%nat).
Proof. vm_compute. reflexivity. Qed.

(** The spec's scenario S5, on a smaller scale: four eligible candidates and
    a target of three; one pass in which every handshake succeeds connects
    the first three. *)
Example S5_target :
  dom (currentPeers (fst (connectToPeers (Sim.fresh 3 2)
         (Some (map (fun a => {| Addr := a; Services := "0000000000000409" |})
                  ["a:1"; "b:1"; "c:1"; "d:1"]))
         (fun l => l) (fun _ => Published))))
  = ({["a:1"; "b:1"; "c:1"]} : gset string).
Proof. vm_compute. reflexivity. Qed.


Lemma newRequest_batches_witness :
  exists d' reqs blockChan,
    newRequest (Sim.fresh 1 2) [1; 2; 3; 4; 5]%N
    = (d', Ok (reqs, blockChan)) /\
    Z.of_nat (length reqs) = ceil_div 5 2 /\
    Forall (fun r => (Z.of_nat (length (InvList (Req r))) <= 2)%Z) reqs /\
    invs_of reqs = map block_inv [1; 2; 3; 4; 5]%N.
Proof.
  exact (newRequest_batches (Sim.fresh 1 2) [1; 2; 3; 4; 5]%N
           ltac:(vm_compute; split; discriminate)).
Defined.

(** With MaxRequestInvs = 0, which NewPrunedBlockDispatcher accepts, a
    request for one hash is queued as a message of one entry. *)
Lemma newRequest_batches_counterexample :
  NewPrunedBlockDispatcher {| NumTargetPeers := 1; MaxRequestInvs := 0 |}
  = Ok (Sim.fresh 1 0) /\
  snd (newRequest (Sim.fresh 1 0) [7%N])
  = Ok ([{| Req := {| InvList := [block_inv 7] |} |}], 0%nat) /\
  ~ Forall (fun r => (Z.of_nat (length (InvList (Req r)))
                      <= MaxRequestInvs (cfg (Sim.fresh 1 0)))%Z)
      [{| Req := {| InvList := [block_inv 7] |} |}].
Proof.
  split; [reflexivity|]. split; [vm_compute; reflexivity|].
  intros Hall. apply Forall_cons in Hall as [Hlen _]. cbn in Hlen. lia.
Qed.

Lemma handleResp_valid_witness :
  blocksQueried Sim.answered = delete 5%N (blocksQueried Sim.asked) /\
  blocksQueried Sim.answered !! 5%N = None /\
  Progressed (snd (handleResp Sim.asked Sim.getdata5
                     (MBlock Sim.good_block) Sim.addr1)) = true /\
  (Finished (snd (handleResp Sim.asked Sim.getdata5
                    (MBlock Sim.good_block) Sim.addr1)) = true <->
   forall inv, In inv [block_inv 5] ->
               InvHash inv <> 5%N ->
               blocksQueried Sim.answered !! InvHash inv = None).
Proof.
  exact (handleResp_valid Sim.asked {| InvList := [block_inv 5] |}
           Sim.good_block Sim.addr1 [0%nat]
           ltac:(vm_compute; reflexivity) eq_refl).
Defined.



Lemma handleResp_ignores_witness :
  snd (handleResp Sim.asked Sim.getdata5 (MBlock Sim.stray_block) Sim.addr1)
  = {| Progressed := false; Finished := false |} /\
  blocksQueried (fst (handleResp Sim.asked Sim.getdata5
                        (MBlock Sim.stray_block) Sim.addr1))
  = blocksQueried Sim.asked /\
  currentPeers (fst (handleResp Sim.asked Sim.getdata5
                       (MBlock Sim.stray_block) Sim.addr1))
  = currentPeers Sim.asked /\
  bannedPeers (fst (handleResp Sim.asked Sim.getdata5
                      (MBlock Sim.stray_block) Sim.addr1))
  = bannedPeers Sim.asked /\
  fst (handleResp Sim.asked Sim.getdata5 (MBlock Sim.stray_block) Sim.addr1)
  = Sim.asked.
Proof.
  apply (handleResp_ignores Sim.asked Sim.getdata5 (MBlock Sim.stray_block)
           Sim.addr1).
  right. right. exists Sim.stray_block. split; [reflexivity|].
  vm_compute. reflexivity.
Defined.

Lemma connected_within_target_witness :
  (Z.of_nat (size (currentPeers Sim.connected)) <= 1)%Z /\
  size (currentPeers Sim.connected) = 1%nat.
Proof.
  split; [|vm_compute; reflexivity].
  exact (proj1 (connected_within_target Sim.config
                  {| disp := Sim.connected; pool := Waiting |}
                  connected_reachable)).
Defined.

Lemma delivery_channel_stays_open_witness :
  exists ch',
    heap Sim.delivered !! 0%nat = Some ch' /\ closed ch' = false.
Proof.
  refine (proj2 (delivery_channel_stays_open Sim.config
                   {| disp := Sim.answered; pool := Waiting |}
                   {| disp := Sim.delivered; pool := Waiting |}
                   0%nat (make_chan 1) answered_reachable _ _)).
  - refine (step_fanout_send Sim.answered Waiting 0 Sim.good_block 0 []
              (match send Sim.answered 0 Sim.good_block with
               | Some d => d
               | None => Sim.answered
               end) _ _); vm_compute; reflexivity.
  - vm_compute. reflexivity.
Defined.

Lemma filterPeers_partial_witness :
  filterPeers ([S1.full] ++ S1.short :: [S1.network_only]) = Panic /\
  filterPeers ([S1.full] ++ S1.not_hex :: [S1.network_only])
  = Err (hex.InvalidByteError "g") /\
  connectToPeers (Sim.fresh 1 2)
    (Some ([S1.full] ++ S1.not_hex :: [S1.network_only]))
    (fun l => l) (fun _ => Published)
  = (emit [EvGetPeers] (Sim.fresh 1 2),
     Err (ErrServices (hex.InvalidByteError "g"))).
Proof.
  destruct (@filterPeers_partial Sim.collaborators) as (_ & Hshort & Hbad).
  assert (Hpre : Forall readable [S1.full]).
  { constructor; [split; vm_compute; [reflexivity | lia]|constructor]. }
  split.
  - apply (Hshort [S1.full] S1.short [S1.network_only] Hpre).
    split; vm_compute; [reflexivity | lia].
  - destruct (Hbad [S1.full] S1.not_hex [S1.network_only] Hpre)
      as (e & He & Hfilter & Hpass).
    { vm_compute. discriminate. }
    vm_compute in He. injection He as <-.
    split; [exact Hfilter | apply Hpass].
Defined.

End Run.

(** * More of the dispatcher *)

(** ** The Services field, digit by digit *)

Lemma DecodeString_digits s :
  snd (hex.DecodeString s) = None <->
  all_hex s = true /\ Nat.even (String.length s) = true.
Proof.
  assert (Hgen : forall n s, (String.length s <= n)%nat ->
            (snd (hex.DecodeString s) = None <->
             all_hex s = true /\ Nat.even (String.length s) = true)).
  { clear s. induction n as [|n IH]; intros s Hlen.
    - destruct s; [cbn; tauto | cbn in Hlen; lia].
    - destruct s as [|p [|q rest]].
      + cbn. tauto.
      + cbn. destruct (hex.fromHexChar p); cbn; split;
          try discriminate; intros [? ?]; discriminate.
      + cbn [hex.DecodeString all_hex String.length].
        destruct (hex.fromHexChar p) as [a|];
          [|cbn; split; [discriminate | intros [? _]; discriminate]].
        destruct (hex.fromHexChar q) as [b|];
          [|cbn; split; [discriminate | intros [? _]; discriminate]].
        specialize (IH rest). cbn in Hlen.
        destruct (hex.DecodeString rest) as [bs e]. cbn [snd] in *.
        change (Nat.even (S (S (String.length rest))))
          with (Nat.even (String.length rest)).
        apply IH. lia. }
  apply (Hgen (String.length s)). lia.
Qed.

Lemma DecodeString_length s :
  snd (hex.DecodeString s) = None ->
  String.length s = (2 * length (fst (hex.DecodeString s)))%nat.
Proof.
  assert (Hgen : forall n s, (String.length s <= n)%nat ->
            snd (hex.DecodeString s) = None ->
            String.length s = (2 * length (fst (hex.DecodeString s)))%nat).
  { clear s. induction n as [|n IH]; intros s Hlen.
    - destruct s; [reflexivity | cbn in Hlen; lia].
    - destruct s as [|p [|q rest]].
      + reflexivity.
      + cbn. destruct (hex.fromHexChar p); discriminate.
      + cbn [hex.DecodeString String.length].
        destruct (hex.fromHexChar p) as [a|]; [|discriminate].
        destruct (hex.fromHexChar q) as [b|]; [|discriminate].
        specialize (IH rest). cbn in Hlen.
        destruct (hex.DecodeString rest) as [bs e]. cbn [fst snd length] in *.
        intros He. rewrite IH by (auto; lia). lia. }
  apply (Hgen (String.length s)). lia.
Qed.

(** X1: filterPeers returns a list exactly when every Services field is an
    even number of hexadecimal digits, sixteen or more. *)
Theorem filterPeers_digits (peers : list GetPeerInfoResult) :
  is_Ok (filterPeers peers) <->
  Forall (fun p => all_hex (Services p) = true /\
                   Nat.even (String.length (Services p)) = true /\
                   (16 <= String.length (Services p))%nat) peers.
Proof.
  assert (Hreadable : forall p,
            readable p <->
            all_hex (Services p) = true /\
            Nat.even (String.length (Services p)) = true /\
            (16 <= String.length (Services p))%nat).
  { intros p. unfold readable. rewrite DecodeString_digits. split.
    - intros [[Hhex Heven] Hlen]. repeat split; try assumption.
      rewrite DecodeString_length by (apply DecodeString_digits; auto). lia.
    - intros (Hhex & Heven & Hlen). split; [auto|].
      rewrite DecodeString_length in Hlen
        by (apply DecodeString_digits; auto). lia. }
  split.
  - intros Hok. apply filterPeers_Ok_readable in Hok.
    eapply Forall_impl; [exact Hok|]. intros p. apply Hreadable.
  - intros Hall. unfold filterPeers.
    rewrite filterPeers_loop_readable; [exact I|].
    eapply Forall_impl; [exact Hall|]. intros p. apply Hreadable.
Qed.

(** ** What filterPeers returns *)

Lemma Uint64_take bs :
  (8 <= length bs)%nat ->
  BigEndian.Uint64 bs = BigEndian.Uint64 (take 8 bs).
Proof.
  intros Hlen.
  destruct bs as [|b0 [|b1 [|b2 [|b3 [|b4 [|b5 [|b6 [|b7 ?]]]]]]]];
    cbn in Hlen; try lia.
  reflexivity.
Qed.

Lemma readable_first_eight p :
  readable p ->
  services_read p
  = Some (be_value (take 8 (fst (hex.DecodeString (Services p))))).
Proof.
  intros [_ Hlen]. unfold services_read.
  rewrite Uint64_take by exact Hlen.
  apply Uint64_be_value.
  - apply Forall_take, DecodeString_bytes.
  - rewrite length_take. lia.
Qed.

Lemma filter_keeps_twice (l : list GetPeerInfoResult) :
  List.filter keeps (List.filter keeps l) = List.filter keeps l.
Proof.
  induction l as [|p l IH]; [reflexivity|]. cbn.
  destruct (keeps p) eqn:E; [|exact IH]. cbn. rewrite E, IH. reflexivity.
Qed.

Lemma filter_keeps_sublist (l : list GetPeerInfoResult) :
  sublist (List.filter keeps l) l.
Proof.
  induction l as [|p l IH]; [constructor|]. cbn.
  destruct (keeps p); [apply sublist_skip | apply sublist_cons]; exact IH.
Qed.

(** X2: what filterPeers returns is a sublist of its input, in input order;
    filtering it again returns it unchanged; and each descriptor in it has,
    in the number its first eight bytes denote, bits 0 and 3 set and bit 11
    clear, whatever bytes follow them. *)
Theorem filterPeers_idempotent (peers eligible : list GetPeerInfoResult) :
  filterPeers peers = Ok eligible ->
  sublist eligible peers /\
  filterPeers eligible = Ok eligible /\
  forall p, In p eligible ->
    eligible_flags
      (be_value (take 8 (fst (hex.DecodeString (Services p))))).
Proof.
  intros Hrun.
  assert (Hall : Forall readable peers).
  { apply (filterPeers_Ok_readable peers []). unfold filterPeers in Hrun.
    rewrite Hrun. exact I. }
  unfold filterPeers in *.
  rewrite filterPeers_loop_readable in Hrun by exact Hall.
  cbn [app] in Hrun. injection Hrun as <-.
  split; [apply filter_keeps_sublist|]. split.
  - rewrite filterPeers_loop_readable.
    + cbn [app]. rewrite filter_keeps_twice. reflexivity.
    + rewrite Forall_forall in *. intros p Hp. apply Hall.
      apply list_elem_of_In. apply list_elem_of_In in Hp.
      apply List.filter_In in Hp. tauto.
  - intros p Hp. apply List.filter_In in Hp as [Hin Hkeep].
    rewrite Forall_forall in Hall.
    assert (Hr : readable p) by (apply Hall, list_elem_of_In, Hin).
    unfold keeps in Hkeep. rewrite (readable_first_eight p Hr) in Hkeep.
    apply eligible_flagsb_spec. exact Hkeep.
Qed.

Lemma filterPeers_idempotent_witness :
  filterPeers [S1.full] = Ok [S1.full] /\
  eligible_flags
    (be_value (take 8 (fst (hex.DecodeString (Services S1.full))))).
Proof.
  destruct (filterPeers_idempotent S1.candidates [S1.full]
              ltac:(vm_compute; reflexivity)) as (_ & Hagain & Hbits).
  split; [exact Hagain | apply Hbits; left; reflexivity].
Defined.

(** ** What newRequest leaves in the pending map *)

Section RegistryMore.
Context `{Collaborators}.

Lemma registerAll_dom (ch : nat) (h : N) (l : list N) :
  forall m : gmap N (list nat),
    is_Some (registerAll ch l m !! h) <-> is_Some (m !! h) \/ In h l.
Proof.
  induction l as [|x l IH]; intros m; cbn [registerAll In].
  - tauto.
  - rewrite IH. destruct (N.eq_dec x h) as [-> | Hne].
    + rewrite register_lookup_eq. split; [auto|]. intros _. left. eauto.
    + rewrite register_lookup_ne by exact Hne. tauto.
Qed.

(** X3: a successful newRequest makes one channel, buffered for as many
    blocks as hashes were asked, and appends it to the pending list of each
    hash once per occurrence of the hash in the request.  The waiters
    already in a list stay, in their order; lists of other hashes are
    untouched; and the hashes pending afterwards are those pending before
    and those asked. *)
Theorem newRequest_registers (d d' : PrunedBlockDispatcher)
  (blocks : list N) (reqs : list Request) (blockChan : nat) :
  newRequest d blocks = (d', Ok (reqs, blockChan)) ->
  blockChan = length (heap d) /\
  heap d' = heap d ++ [make_chan (length blocks)] /\
  forall h,
    default [] (blocksQueried d' !! h)
    = default [] (blocksQueried d !! h)
      ++ replicate (count_occ N.eq_dec blocks h) blockChan /\
    (~ In h blocks -> blocksQueried d' !! h = blocksQueried d !! h) /\
    (is_Some (blocksQueried d' !! h) <->
     is_Some (blocksQueried d !! h) \/ In h blocks).
Proof.
  intros Hrun. apply newRequest_Ok in Hrun as (Ech & -> & _).
  split; [exact Ech|]. split; [reflexivity|]. intros h. cbn.
  destruct (registerAll_keeps blockChan h blocks (blocksQueried d))
    as [Hkeep _].
  split; [exact Hkeep|]. split; [|apply registerAll_dom].
  intros Hnot.
  pose proof (registerAll_dom blockChan h blocks (blocksQueried d)) as Hdom.
  rewrite (proj1 (count_occ_not_In N.eq_dec blocks h) Hnot) in Hkeep.
  cbn in Hkeep. rewrite app_nil_r in Hkeep.
  destruct (registerAll blockChan blocks (blocksQueried d) !! h) eqn:E1,
           (blocksQueried d !! h) eqn:E2; cbn in Hkeep.
  - congruence.
  - exfalso. destruct (proj1 Hdom) as [[? ?] | ?]; [eauto | congruence | auto].
  - exfalso. destruct (proj2 Hdom) as [? ?]; [left; eauto | congruence].
  - reflexivity.
Qed.

Lemma newRequest_loop_err (blocks : list N) :
  forall d ch len i reqs getData d' e,
    newRequest_loop d ch len i blocks reqs getData = (d', Err e) ->
    e = ErrTooManyInvs /\
    exists k h,
      blocks !! k = Some h /\
      d' = set_blocksQueried (registerAll ch (take k blocks)) d /\
      blocksQueried d' !! h = None.
Proof.
  induction blocks as [|x t IH]; intros d ch len i reqs getData d' e Hrun.
  - discriminate Hrun.
  - cbn [newRequest_loop] in Hrun.
    assert (Hrec : forall reqs1 g1,
              newRequest_loop (set_blocksQueried (register ch x) d) ch len
                (S i) t reqs1 g1 = (d', Err e) ->
              e = ErrTooManyInvs /\
              exists k h,
                (x :: t) !! k = Some h /\
                d' = set_blocksQueried (registerAll ch (take k (x :: t))) d /\
                blocksQueried d' !! h = None).
    { intros reqs1 g1 Hrun1.
      apply IH in Hrun1 as (He & k & h & Hk & Hd & Hh).
      split; [exact He|]. exists (S k), h.
      split; [exact Hk|]. split; [exact Hd | exact Hh]. }
    destruct (blocksQueried d !! x) as [chans|] eqn:Ex.
    + destruct (queueNow _ len i (orNew getData)); eapply Hrec; exact Hrun.
    + unfold AddInvVect in Hrun.
      destruct (_ >? _)%Z.
      * injection Hrun as <- <-. split; [reflexivity|].
        exists 0%nat, x. split; [reflexivity|]. cbn.
        rewrite set_blocksQueried_id. split; [reflexivity | exact Ex].
      * destruct (queueNow _ len i _); eapply Hrec; exact Hrun.
Qed.

Lemma newRequest_loop_no_panic (blocks : list N) :
  forall d ch len i reqs getData,
    snd (newRequest_loop d ch len i blocks reqs getData) <> Panic.
Proof.
  induction blocks as [|x t IH]; intros d ch len i reqs getData;
    cbn [newRequest_loop]; [discriminate|].
  destruct (blocksQueried d !! x).
  - destruct (queueNow _ len i _); apply IH.
  - unfold AddInvVect. destruct (_ >? _)%Z; [discriminate|].
    destruct (queueNow _ len i _); apply IH.
Qed.

(** X4: newRequest fails only with wire's error for a getdata message that
    is full, and only in a dispatcher whose MaxRequestInvs is below 1 or
    above MaxInvPerMsg.  It then returns no request, but the map keeps the
    caller's channel under every hash that came before the failing one,
    which itself is left not pending. *)
Theorem newRequest_fails (d d' : PrunedBlockDispatcher) (blocks : list N)
  (e : error) :
  newRequest d blocks = (d', Err e) ->
  e = ErrTooManyInvs /\
  ((MaxRequestInvs (cfg d) < 1)%Z \/
   (MaxInvPerMsg < MaxRequestInvs (cfg d))%Z) /\
  heap d' = heap d ++ [make_chan (length blocks)] /\
  exists k h,
    blocks !! k = Some h /\
    blocksQueried d'
    = registerAll (length (heap d)) (take k blocks) (blocksQueried d) /\
    blocksQueried d' !! h = None.
Proof.
  unfold newRequest. intros Hrun.
  set (d0 := set_heap (fun hp => hp ++ [make_chan (length blocks)]) d) in *.
  destruct (newRequest_loop d0 (length (heap d)) (length blocks) 0 blocks
              [] None) as [d1 [reqs1 | e1 |]] eqn:Eloop;
    try discriminate Hrun.
  injection Hrun as -> ->.
  split; [|split].
  - apply newRequest_loop_err in Eloop. tauto.
  - destruct (Z_lt_dec (MaxRequestInvs (cfg d)) 1) as [|Hlow]; [auto|].
    destruct (Z_lt_dec MaxInvPerMsg (MaxRequestInvs (cfg d))) as [|Hhigh];
      [auto|].
    exfalso.
    destruct (newRequest_loop_count blocks d0 (length (heap d))
                (length blocks) 0 [] None) as (d2 & reqs2 & Hok & _);
      [cbn; lia | reflexivity | cbn; lia | reflexivity | constructor |].
    congruence.
  - apply newRequest_loop_err in Eloop as (_ & k & h & Hk & -> & Hh).
    split; [reflexivity|]. exists k, h. auto.
Qed.

Lemma newRequest_loop_nonempty (blocks : list N) :
  forall d ch len i reqs getData d' reqs',
    MaxRequestInvs (cfg d) <> 0%Z ->
    Forall (fun r => InvList (Req r) <> []) reqs ->
    newRequest_loop d ch len i blocks reqs getData = (d', Ok reqs') ->
    Forall (fun r => InvList (Req r) <> []) reqs'.
Proof.
  induction blocks as [|x t IH];
    intros d ch len i reqs getData d' reqs' Hmax Hreqs Hrun.
  - injection Hrun as <- <-. exact Hreqs.
  - cbn [newRequest_loop] in Hrun.
    assert (Hstep : forall g,
              (if queueNow (set_blocksQueried (register ch x) d) len i g
               then newRequest_loop (set_blocksQueried (register ch x) d) ch
                      len (S i) t (reqs ++ [{| Req := g |}]) None
               else newRequest_loop (set_blocksQueried (register ch x) d) ch
                      len (S i) t reqs (Some g)) = (d', Ok reqs') ->
              Forall (fun r => InvList (Req r) <> []) reqs').
    { intros g Hg. destruct (queueNow _ len i g) eqn:Eq.
      - refine (IH _ _ _ _ _ _ _ _ _ _ Hg); [exact Hmax|].
        apply Forall_app. split; [exact Hreqs|].
        constructor; [|constructor]. cbn [Req]. intros E.
        unfold queueNow in Eq. rewrite E in Eq.
        cbn [length cfg set_blocksQueried] in Eq.
        change (Z.of_nat 0) with 0%Z in Eq. rewrite Z.ltb_irrefl in Eq.
        cbn [andb orb] in Eq. apply Z.eqb_eq in Eq. lia.
      - exact (IH (set_blocksQueried (register ch x) d) _ _ _ _ _ _ _
                 Hmax Hreqs Hg). }
    destruct (blocksQueried d !! x).
    + exact (Hstep _ Hrun).
    + unfold AddInvVect in Hrun.
      destruct (_ >? _)%Z; [discriminate Hrun|].
      exact (Hstep _ Hrun).
Qed.

(** X5: unless MaxRequestInvs is 0, no getdata message that newRequest
    queues is empty. *)
Theorem newRequest_no_empty_batch (d d' : PrunedBlockDispatcher)
  (blocks : list N) (reqs : list Request) (blockChan : nat) :
  MaxRequestInvs (cfg d) <> 0%Z ->
  newRequest d blocks = (d', Ok (reqs, blockChan)) ->
  Forall (fun r => InvList (Req r) <> []) reqs.
Proof.
  unfold newRequest. intros Hmax Hrun.
  destruct (newRequest_loop _ _ _ _ _ _ _) as [d1 [reqs1 | e1 |]] eqn:Eloop;
    try discriminate Hrun.
  injection Hrun as <- <- <-.
  eapply newRequest_loop_nonempty; [| |exact Eloop]; [exact Hmax|constructor].
Qed.

End RegistryMore.

(** ** Query, and responses one after another *)

Section FacadeMore.
Context `{Collaborators}.

Lemma notPending_nil (l : list N) :
  forall P : gset N, notPending P l = [] <-> forall h, In h l -> h ∈ P.
Proof.
  induction l as [|x l IH]; intros P; cbn [notPending In].
  - split; [intros _ h [] | reflexivity].
  - destruct (decide (x ∈ P)) as [Hx | Hx].
    + rewrite IH. split.
      * intros Hall h [<- | Hin]; auto.
      * intros Hall h Hin. apply Hall. right. exact Hin.
    + split; [discriminate|]. intros Hall. exfalso. apply Hx, Hall.
      left. reflexivity.
Qed.

(** X6: with MaxRequestInvs between 1 and MaxInvPerMsg, Query returns the
    new block channel, and its error channel is nil exactly when every hash
    asked was already pending: nothing is then handed to the work manager,
    though the caller is registered all the same.  Otherwise the error
    channel is the work manager's, for a non-empty list of requests whose
    entries are the hashes that were not pending. *)
Theorem Query_error_channel (d : PrunedBlockDispatcher) (blocks : list N) :
  (1 <= MaxRequestInvs (cfg d) <= MaxInvPerMsg)%Z ->
  exists errChan,
    Query d blocks
    = (fst (newRequest d blocks), Some (Some (length (heap d)), errChan)) /\
    (errChan = NilErrChan <->
     forall h, In h blocks -> is_Some (blocksQueried d !! h)) /\
    (errChan <> NilErrChan ->
     exists reqs,
       errChan = OfWorkManager reqs /\ reqs <> [] /\
       invs_of reqs
       = map block_inv (notPending (dom (blocksQueried d)) blocks)).
Proof.
  intros Hcfg.
  pose (d0 := set_heap (fun hp => hp ++ [make_chan (length blocks)]) d).
  destruct (newRequest_loop_count blocks d0 (length (heap d)) (length blocks)
              0 [] None) as (d' & reqs & Hrun & Hcount & _);
    [exact Hcfg | reflexivity | cbn; lia | reflexivity | constructor |].
  assert (Hreq : newRequest d blocks = (d', Ok (reqs, length (heap d)))).
  { unfold newRequest. fold d0. rewrite Hrun. reflexivity. }
  pose proof (newRequest_Ok _ _ _ _ _ Hreq) as (_ & _ & Hinvs).
  cbn in Hcount. change (blocksQueried d0) with (blocksQueried d) in Hcount.
  set (fresh := notPending (dom (blocksQueried d)) blocks) in *.
  assert (Hempty : reqs = [] <-> fresh = []).
  { split.
    - intros ->. cbn in Hinvs. symmetry in Hinvs.
      apply map_eq_nil in Hinvs. exact Hinvs.
    - intros Hf. rewrite Hf in Hcount. cbn in Hcount.
      rewrite ceil_div_zero in Hcount by lia.
      destruct reqs; [reflexivity | cbn in Hcount; lia]. }
  assert (Hall : fresh = [] <->
                 forall h, In h blocks -> is_Some (blocksQueried d !! h)).
  { subst fresh. rewrite notPending_nil.
    split; intros Hp h Hin; apply elem_of_dom, Hp, Hin. }
  unfold Query. rewrite Hreq. cbn [fst].
  destruct reqs as [|r reqs]; cbn [length Nat.ltb Nat.leb].
  - exists NilErrChan. split; [reflexivity|]. split.
    + split; [intros _; apply Hall, Hempty; reflexivity | reflexivity].
    + intros Hne. contradiction.
  - exists (OfWorkManager (r :: reqs)). split; [reflexivity|]. split.
    + split; [discriminate|]. intros Hp. apply Hall, Hempty in Hp.
      discriminate Hp.
    + intros _. exists (r :: reqs). split; [reflexivity|].
      split; [discriminate | exact Hinvs].
Qed.

(** X7: once a hash has been served, asking for it again fetches it again:
    the new request holds one inventory entry for it, and only the new
    caller waits for it. *)
Theorem served_hash_is_fetched_again (d d2 : PrunedBlockDispatcher)
  (getData : MsgGetData) (block : MsgBlock) (peer : string)
  (blockChans : list nat) (blocks : list N) (reqs : list Request)
  (blockChan : nat) :
  blocksQueried d !! BlockHash block = Some blockChans ->
  CheckBlockSanity block (timeSource d) = true ->
  In (BlockHash block) blocks ->
  newRequest (fst (handleResp d (MGetData getData) (MBlock block) peer))
    blocks = (d2, Ok (reqs, blockChan)) ->
  length (entries_for (BlockHash block) (invs_of reqs)) = 1%nat /\
  blocksQueried d2 !! BlockHash block
  = Some (replicate (count_occ N.eq_dec blocks (BlockHash block)) blockChan).
Proof.
  intros Hpending Hsane Hin Hrun.
  apply newRequest_Ok in Hrun as (_ & -> & Hinvs).
  unfold handleResp in *. rewrite Hpending, Hsane in *. cbn in *.
  split.
  - rewrite Hinvs, entries_for_blocks. apply notPending_once; [|exact Hin].
    rewrite not_elem_of_dom. apply lookup_delete_eq.
  - rewrite registerAll_lookup by exact Hin.
    rewrite lookup_delete_eq. reflexivity.
Qed.

(** X8: a block that fails the sanity check costs the request nothing: when
    a sane block with the same hash arrives afterwards, from whatever peer,
    handleResp reports the same progress as it would have at first, removes
    the hash, and hands the block to the waiters that were registered. *)
Theorem invalid_then_valid (d : PrunedBlockDispatcher) (getData : MsgGetData)
  (bad good : MsgBlock) (peer1 peer2 : string) (blockChans : list nat) :
  BlockHash bad = BlockHash good ->
  blocksQueried d !! BlockHash good = Some blockChans ->
  CheckBlockSanity bad (timeSource d) = false ->
  CheckBlockSanity good (timeSource d) = true ->
  let d1 := fst (handleResp d (MGetData getData) (MBlock bad) peer1) in
  let d2 := fst (handleResp d1 (MGetData getData) (MBlock good) peer2) in
  snd (handleResp d1 (MGetData getData) (MBlock good) peer2)
  = snd (handleResp d (MGetData getData) (MBlock good) peer2) /\
  Progressed (snd (handleResp d1 (MGetData getData) (MBlock good) peer2))
  = true /\
  blocksQueried d2 = delete (BlockHash good) (blocksQueried d) /\
  fanouts d2 = fanouts d ++ [(good, blockChans)] /\
  peer1 ∈ bannedPeers d2.
Proof.
  intros Hhash Hpending Hbad Hgood d1 d2.
  assert (Hd1 : d1 = banPeer d peer1).
  { subst d1. unfold handleResp. rewrite Hhash, Hpending, Hbad. reflexivity. }
  assert (Hbq : blocksQueried d1 = blocksQueried d
                /\ timeSource d1 = timeSource d /\ fanouts d1 = fanouts d
                /\ peer1 ∈ bannedPeers d1).
  { rewrite Hd1. unfold banPeer. cbn [set_bannedPeers currentPeers].
    destruct (currentPeers d !! peer1); cbn; repeat split; set_solver. }
  destruct Hbq as (Ebq & Ets & Efan & Hban).
  assert (Hrun1 : handleResp d1 (MGetData getData) (MBlock good) peer2
                  = (set_fanouts (fun t => t ++ [(good, blockChans)])
                       (set_blocksQueried (delete (BlockHash good)) d1),
                     {| Progressed := true;
                        Finished := negb (anyPending
                                      (delete (BlockHash good)
                                         (blocksQueried d1))
                                      (InvList getData)) |})).
  { assert (Hp1 : blocksQueried d1 !! BlockHash good = Some blockChans)
      by (rewrite Ebq; exact Hpending).
    assert (Hs1 : CheckBlockSanity good (timeSource d1) = true)
      by (rewrite Ets; exact Hgood).
    unfold handleResp. rewrite Hp1, Hs1. reflexivity. }
  assert (Hrun0 : snd (handleResp d (MGetData getData) (MBlock good) peer2)
                  = {| Progressed := true;
                       Finished := negb (anyPending
                                     (delete (BlockHash good)
                                        (blocksQueried d))
                                     (InvList getData)) |}).
  { unfold handleResp. rewrite Hpending, Hgood. reflexivity. }
  subst d2. rewrite Hrun1, Hrun0. cbn. rewrite Ebq, Efan.
  repeat split; assumption.
Qed.


(** X10: handleResp never registers a waiter and never lifts a ban; it
    leaves the channels, the connected map and the config alone.  When it
    reports progress it has banned nobody and done no I/O; when it reports
    none, the pending map and the fan-outs are as they were. *)
Theorem handleResp_footprint (d : PrunedBlockDispatcher) (req resp : Message)
  (peer : string) :
  let d' := fst (handleResp d req resp peer) in
  let progress := snd (handleResp d req resp peer) in
  cfg d' = cfg d /\ heap d' = heap d /\ currentPeers d' = currentPeers d /\
  quit d' = quit d /\ timeSource d' = timeSource d /\
  bannedPeers d ⊆ bannedPeers d' /\
  (forall h, blocksQueried d' !! h = blocksQueried d !! h \/
             blocksQueried d' !! h = None) /\
  (Progressed progress = true ->
   bannedPeers d' = bannedPeers d /\ io d' = io d) /\
  (Progressed progress = false ->
   blocksQueried d' = blocksQueried d /\ fanouts d' = fanouts d /\
   Finished progress = false).
Proof.
  unfold handleResp.
  destruct resp as [block| |]; try (cbn; repeat split; auto; discriminate).
  destruct req as [|getData|]; try (cbn; repeat split; auto; discriminate).
  destruct (blocksQueried d !! BlockHash block) as [chans|];
    try (cbn; repeat split; auto; discriminate).
  destruct (CheckBlockSanity block (timeSource d)); cbn [negb fst snd].
  - cbn. repeat split; auto; try discriminate.
    intros h. destruct (decide (BlockHash block = h)) as [<- | Hne].
    + right. apply lookup_delete_eq.
    + left. apply lookup_delete_ne. exact Hne.
  - unfold banPeer. cbn [set_bannedPeers currentPeers].
    destruct (currentPeers d !! peer); cbn; repeat split; auto;
      try discriminate; set_solver.
Qed.

End FacadeMore.

(** ** A connection pass, run on its own *)

Section PoolMore.
Context `{Collaborators}.

Lemma possible_quit (d d' : PrunedBlockDispatcher) (o : NetOutcome) :
  quit d' = quit d -> possible d o -> possible d' o.
Proof. intros E. destruct o; cbn; rewrite ?E; auto. Qed.

Lemma tryPeer_quit (d d' : PrunedBlockDispatcher) (peer : GetPeerInfoResult)
  (o : NetOutcome) (r : option loop_ctl) :
  tryPeer d peer o = (d', r) -> quit d' = quit d.
Proof. destruct o; intros [= <- _]; reflexivity. Qed.

(** The loop of connectToPeers is a run of the pool task's moves with no
    move of another goroutine in between. *)
Lemma connectLoop_run (peers : list GetPeerInfoResult) :
  forall (d : PrunedBlockDispatcher) (net : nat -> NetOutcome) (i : nat),
    (forall j, possible d (net j)) ->
    rtc pool_step {| disp := d; pool := InPass peers |}
      {| disp := fst (connectLoop d peers net i); pool := Waiting |}.
Proof.
  induction peers as [|peer rest IH]; intros d net i Hposs; cbn [connectLoop].
  - apply rtc_once, step_pass_done.
  - unfold connectIter. destruct (skipPeer d peer) eqn:Eskip.
    { eapply rtc_l; [apply step_skip, Eskip|]. apply IH, Hposs. }
    eapply rtc_l; [apply step_check, Eskip|].
    destruct (tryPeer d peer (net i)) as [d1 [ctl|]] eqn:Etry.
    + pose proof (tryPeer_quit _ _ _ _ _ Etry) as Eq.
      eapply rtc_l; [exact (step_try_fail d peer rest (net i) d1 ctl
                              (Hposs i) Etry)|].
      destruct ctl; cbn [after_ctl fst]; [|apply rtc_refl..].
      apply IH. intros j. apply (possible_quit d d1 _ Eq), Hposs.
    + pose proof (tryPeer_quit _ _ _ _ _ Etry) as Eq.
      eapply rtc_l; [exact (step_try_publish d peer rest (net i) d1
                              (Hposs i) Etry)|].
      destruct (recordPeer d1 {| peerAddr := Addr peer |}) as [d2 ctl]
        eqn:Erec.
      assert (Eq2 : quit d2 = quit d1).
      { unfold recordPeer in Erec. destruct (_ =? _)%Z;
          injection Erec as <- _; reflexivity. }
      eapply rtc_l; [exact (step_record d1 _ rest d2 ctl Erec)|].
      destruct ctl; cbn [after_ctl fst]; [|apply rtc_refl..].
      apply IH. intros j.
      apply (possible_quit d1 d2 _ Eq2), (possible_quit d d1 _ Eq), Hposs.
Qed.

(** X12: a pass that nothing interleaves with reaches the target when it
    can.  Entered below the target, with candidates of distinct addresses,
    none banned or connected, at least as many as are missing, and every
    handshake succeeding, the loop is a run of the pool task's moves alone
    that returns without error with exactly NumTargetPeers peers
    connected. *)
Theorem connectLoop_reaches_target (peers : list GetPeerInfoResult) :
  forall (d : PrunedBlockDispatcher) (net : nat -> NetOutcome) (i : nat),
    NoDup (map Addr peers) ->
    (forall p, In p peers ->
       (Addr p ∉ bannedPeers d) /\ currentPeers d !! Addr p = None) ->
    (forall j, net j = Published) ->
    (Z.of_nat (size (currentPeers d)) < NumTargetPeers (cfg d)
     <= Z.of_nat (size (currentPeers d)) + Z.of_nat (length peers))%Z ->
    rtc pool_step {| disp := d; pool := InPass peers |}
      {| disp := fst (connectLoop d peers net i); pool := Waiting |} /\
    snd (connectLoop d peers net i) = Ok tt /\
    Z.of_nat (size (currentPeers (fst (connectLoop d peers net i))))
    = NumTargetPeers (cfg d).
Proof.
  intros d net i Hnodup Hfresh Hnet Hsz. split.
  { apply connectLoop_run. intros j. rewrite Hnet. exact I. }
  revert d net i Hnodup Hfresh Hnet Hsz.
  induction peers as [|peer rest IH]; intros d net i Hnodup Hfresh Hnet Hsz.
  - cbn in Hsz. lia.
  - cbn [connectLoop]. unfold connectIter.
    destruct (Hfresh peer (or_introl eq_refl)) as [Hban Hnone].
    assert (Eskip : skipPeer d peer = false).
    { unfold skipPeer. apply orb_false_iff. split.
      - apply bool_decide_eq_false. exact Hban.
      - apply bool_decide_eq_false. rewrite Hnone. intros [? ?]. discriminate. }
    rewrite Eskip, Hnet. cbn [tryPeer]. unfold recordPeer.
    cbn [emit set_currentPeers currentPeers cfg peerAddr].
    assert (Esize : size (<[Addr peer := {| peerAddr := Addr peer |}]>
                             (currentPeers d))
                    = S (size (currentPeers d)))
      by (apply map_size_insert_None; exact Hnone).
    rewrite Esize.
    destruct (Z.of_nat (S (size (currentPeers d))) =? NumTargetPeers (cfg d))%Z
      eqn:E.
    + apply Z.eqb_eq in E. cbn. rewrite Esize. auto.
    + apply Z.eqb_neq in E.
      set (d1 := set_currentPeers _ (emit _ d)).
      apply NoDup_cons in Hnodup as [Hnotin Hnodup].
      apply (IH d1 net (S i)); [exact Hnodup | | exact Hnet |].
      * intros p Hp. destruct (Hfresh p (or_intror Hp)) as [Hb Hn].
        split; [exact Hb|]. subst d1. cbn.
        rewrite lookup_insert_ne; [exact Hn|].
        intros Heq. apply Hnotin. rewrite Heq.
        apply list_elem_of_In, in_map, Hp.
      * subst d1. cbn [set_currentPeers currentPeers cfg emit].
        rewrite Esize. cbn [length] in Hsz. lia.
Qed.

End PoolMore.

(** ** The shape of each move *)

Section Shapes.
Context `{Collaborators}.

Lemma newRequest_shape (d : PrunedBlockDispatcher) (blocks : list N) :
  exists k,
    (k <= length blocks)%nat /\
    fst (newRequest d blocks)
    = set_blocksQueried (registerAll (length (heap d)) (take k blocks))
        (set_heap (fun hp => hp ++ [make_chan (length blocks)]) d).
Proof.
  unfold newRequest.
  set (d0 := set_heap (fun hp => hp ++ [make_chan (length blocks)]) d).
  pose proof (newRequest_loop_no_panic blocks d0 (length (heap d))
                (length blocks) 0 [] None) as Hnp.
  destruct (newRequest_loop d0 (length (heap d)) (length blocks) 0 blocks
              [] None) as [d1 [reqs | e |]] eqn:Eloop; cbn [fst].
  - apply newRequest_loop_content in Eloop as [_ ->];
      [|reflexivity|reflexivity].
    exists (length blocks). split; [lia|]. rewrite take_ge by lia.
    reflexivity.
  - apply newRequest_loop_err in Eloop as (_ & k & h & Hk & -> & _).
    exists k. split; [|reflexivity].
    apply lookup_lt_Some in Hk. lia.
  - exfalso. apply Hnp. reflexivity.
Qed.

Lemma emit_nil (d : PrunedBlockDispatcher) : emit [] d = d.
Proof.
  destruct d. unfold emit. cbn. f_equal. apply app_nil_r.
Qed.

Lemma banPeer_shape (d : PrunedBlockDispatcher) (peer : string) :
  exists evs,
    banPeer d peer
    = emit evs (set_bannedPeers (fun b => {[peer]} ∪ b) d) /\
    forall ev, In ev evs -> exists a, ev = EvDisconnect a.
Proof.
  unfold banPeer. cbn [set_bannedPeers currentPeers].
  destruct (currentPeers d !! peer) as [p|].
  - exists [EvDisconnect (peerAddr p)]. split; [reflexivity|].
    intros ev [<- | []]. eauto.
  - exists []. split; [|intros ev []].
    rewrite emit_nil. reflexivity.
Qed.

Lemma handleResp_shape (d : PrunedBlockDispatcher) (req resp : Message)
  (peer : string) :
  fst (handleResp d req resp peer) = d \/
  fst (handleResp d req resp peer) = banPeer d peer \/
  exists block blockChans,
    blocksQueried d !! BlockHash block = Some blockChans /\
    fst (handleResp d req resp peer)
    = set_fanouts (fun t => t ++ [(block, blockChans)])
        (set_blocksQueried (delete (BlockHash block)) d).
Proof.
  unfold handleResp.
  destruct resp as [block| |]; [|auto..].
  destruct req as [|getData|]; [auto| |auto].
  destruct (blocksQueried d !! BlockHash block) as [chans|] eqn:E; [|auto].
  destruct (negb (CheckBlockSanity block (timeSource d))); [auto|].
  right. right. exists block, chans. auto.
Qed.

Lemma send_shape (d d' : PrunedBlockDispatcher) (c : nat) (block : MsgBlock) :
  send d c block = Some d' ->
  exists ch,
    heap d !! c = Some ch /\ closed ch = false /\
    (length (buf ch) < cap ch)%nat /\
    d' = set_heap (fun hp =>
           <[c := {| cap := cap ch; buf := buf ch ++ [block];
                     closed := closed ch |}]> hp) d.
Proof.
  unfold send. destruct (heap d !! c) as [ch|]; [|discriminate].
  destruct (closed ch) eqn:Ec; [discriminate|].
  destruct (_ <? _)%nat eqn:El; [|discriminate].
  intros [= <-]. apply Nat.ltb_lt in El. exists ch. rewrite Ec. auto.
Qed.

Lemma tryPeer_shape (d d' : PrunedBlockDispatcher) (peer : GetPeerInfoResult)
  (o : NetOutcome) (r : option loop_ctl) :
  tryPeer d peer o = (d', r) ->
  exists evs,
    d' = emit evs d /\
    (forall a, In (EvDial a) evs -> a = Addr peer) /\
    (r = None -> In (EvPublish (Addr peer)) evs).
Proof.
  destruct o; cbn [tryPeer]; intros [= <- <-].
  - exists []. split; [|split; [intros a [] | discriminate]].
    rewrite emit_nil. reflexivity.
  - eexists. split; [reflexivity|].
    split; [intros a [[= <-]|[]]; reflexivity | discriminate].
  - eexists. split; [reflexivity|].
    split; [intros a [[= <-]|[?|[]]]; [reflexivity|discriminate]
           | discriminate].
  - eexists. split; [reflexivity|].
    split; [intros a [[= <-]|[]]; reflexivity | discriminate].
  - eexists. split; [reflexivity|].
    split; [intros a [[= <-]|[]]; reflexivity | discriminate].
  - eexists. split; [reflexivity|].
    split; [intros a [[= <-]|[?|[]]]; [reflexivity|discriminate]|].
    intros _. right. left. reflexivity.
Qed.

Lemma recordPeer_shape (d d' : PrunedBlockDispatcher) (queryPeer : Peer)
  (ctl : loop_ctl) :
  recordPeer d queryPeer = (d', ctl) ->
  d' = set_currentPeers (fun m => <[peerAddr queryPeer := queryPeer]> m) d.
Proof.
  unfold recordPeer. destruct (_ =? _)%Z; intros [= <- _]; reflexivity.
Qed.

End Shapes.

(** ** What holds along every run *)

Ltac pool_cases Hpool :=
  destruct Hpool
    as [d p Hb | d Hidle | d p Hneed Hb | d peer todo Hskip
       | d peer todo Hskip
       | d peer todo o d' ctl Hposs Htry
       | d peer todo o d' Hposs Htry
       | d queryPeer todo d' ctl Hrec | d | d Hq];
  repeat match goal with
         | E : tryPeer _ _ _ = _ |- _ =>
             apply tryPeer_shape in E as (? & -> & ? & ?)
         | E : recordPeer _ _ = _ |- _ => apply recordPeer_shape in E as ->
         end;
  cbn [disp pool].

Ltac step_cases Hstep :=
  let Hpool := fresh "Hpool" in
  destruct Hstep
    as [? ? Hpool | d p addr | d p t | d p blocks | d p req resp peer
       | d p k block c rest d' Hk Hsend | d p k block Hk
       | d p k task Hq Hk | d p Hq];
  [pool_cases Hpool | ..];
  repeat match goal with
         | E : send _ _ _ = Some _ |- _ =>
             apply send_shape in E as (? & ? & ? & ? & ->)
         end;
  cbn [disp pool].

Section Invariants.
Context `{Collaborators}.

Lemma skipPeer_false (d : PrunedBlockDispatcher) (peer : GetPeerInfoResult) :
  skipPeer d peer = false ->
  (Addr peer ∉ bannedPeers d) /\ currentPeers d !! Addr peer = None.
Proof.
  unfold skipPeer. intros E. apply orb_false_iff in E as [Hb Hc].
  apply bool_decide_eq_false in Hb, Hc. split; [exact Hb|].
  destruct (currentPeers d !! Addr peer); [|reflexivity].
  exfalso. apply Hc. eauto.
Qed.

(** One move never lifts a ban and only adds to the log of I/O; a dial is
    the pool task's, of the candidate whose check it has passed. *)
Lemma step_bans (w w' : World) :
  step w w' ->
  bannedPeers (disp w) ⊆ bannedPeers (disp w') /\
  exists evs,
    io (disp w') = io (disp w) ++ evs /\
    forall a, In (EvDial a) evs ->
      exists peer todo, pool w = Trying peer todo /\ Addr peer = a.
Proof.
  assert (Hsame : forall (d d' : PrunedBlockDispatcher) p,
            bannedPeers d' = bannedPeers d -> io d' = io d ->
            bannedPeers d ⊆ bannedPeers d' /\
            exists evs, io d' = io d ++ evs /\
              forall a, In (EvDial a) evs ->
                exists peer todo, p = Trying peer todo /\ Addr peer = a).
  { intros d d' p -> ->. split; [reflexivity|]. exists [].
    split; [rewrite app_nil_r; reflexivity | intros a []]. }
  intros Hstep. step_cases Hstep; try (apply Hsame; reflexivity).
  - split; [reflexivity|]. exists [EvGetPeers]. split; [reflexivity|].
    intros a [? | []]. discriminate.
  - split; [reflexivity|]. exists [EvGetPeers]. split; [reflexivity|].
    intros a [? | []]. discriminate.
  - split; [reflexivity|]. eexists. split; [reflexivity|].
    intros a Ha. exists peer, todo. rewrite (H0 a Ha). auto.
  - split; [reflexivity|]. eexists. split; [reflexivity|].
    intros a Ha. exists peer, todo. rewrite (H0 a Ha). auto.
  - destruct (newRequest_shape d blocks) as (n & _ & ->).
    apply Hsame; reflexivity.
  - destruct (handleResp_shape d req resp peer)
      as [-> | [-> | (block & chans & _ & ->)]];
      try (apply Hsame; reflexivity).
    destruct (banPeer_shape d peer) as (evs & -> & Hevs). cbn. split.
    + apply union_subseteq_r.
    + exists evs. split; [reflexivity|]. intros a Ha.
      destruct (Hevs _ Ha) as [? ?]. discriminate.
Qed.

(** The pool task comes to stand before the dial of a candidate only by
    passing the candidate's check, which a banned address fails. *)
Lemma step_trying (w w' : World) (cand : GetPeerInfoResult)
  (others : list GetPeerInfoResult) :
  step w w' ->
  pool w' = Trying cand others ->
  pool w = Trying cand others \/ Addr cand ∉ bannedPeers (disp w).
Proof.
  intros Hstep. step_cases Hstep; auto; try discriminate.
  - intros ->. inversion Hb.
  - intros ->. inversion Hb.
  - intros [= <- _]. right. apply skipPeer_false, Hskip.
  - destruct ctl; discriminate.
  - destruct ctl; discriminate.
Qed.

(** X13: a ban lasts, and the pool task does not start on a banned address.
    Along any run from a world in which an address is banned and the pool
    task is not already past its check of that address, the address stays
    banned and no dial of it is added to the log of I/O.  (A candidate
    whose check was passed before the ban landed is still dialed: the peer
    lock is released between the check and the dial.) *)
Theorem banned_never_dialed (w w' : World) (a : string) :
  rtc step w w' ->
  a ∈ bannedPeers (disp w) ->
  (forall peer todo, pool w = Trying peer todo -> Addr peer <> a) ->
  a ∈ bannedPeers (disp w') /\
  (forall peer todo, pool w' = Trying peer todo -> Addr peer <> a) /\
  exists evs,
    io (disp w') = io (disp w) ++ evs /\ ~ In (EvDial a) evs.
Proof.
  intros Hrun. induction Hrun as [w | w w1 w' Hstep _ IH]; intros Hban Hnot.
  - split; [exact Hban|]. split; [exact Hnot|].
    exists []. rewrite app_nil_r. split; [reflexivity | intros []].
  - destruct (step_bans w w1 Hstep) as (Hsub & evs1 & Eio1 & Hdial1).
    assert (Hnot1 : forall peer todo,
              pool w1 = Trying peer todo -> Addr peer <> a).
    { intros peer todo Hp.
      destruct (step_trying w w1 peer todo Hstep Hp) as [Hp0 | Hfree].
      - exact (Hnot peer todo Hp0).
      - intros E. apply Hfree. rewrite E. exact Hban. }
    destruct (IH (Hsub a Hban) Hnot1) as (Hban' & Hnot' & evs2 & Eio2 & Hdial2).
    split; [exact Hban'|]. split; [exact Hnot'|].
    exists (evs1 ++ evs2). split.
    + rewrite Eio2, Eio1, app_assoc. reflexivity.
    + rewrite in_app_iff. intros [Hin | Hin]; [|exact (Hdial2 Hin)].
      destruct (Hdial1 a Hin) as (peer & todo & Hp & Ha).
      exact (Hnot peer todo Hp Ha).
Qed.

(** The check can be overtaken: when a ban lands between the check of a
    candidate and its dial, the candidate is dialed all the same. *)
Lemma ban_after_check_is_dialed (d : PrunedBlockDispatcher)
  (peer : GetPeerInfoResult) (todo : list GetPeerInfoResult)
  (req resp : Message) :
  skipPeer d peer = false ->
  exists d1 d2 p2,
    step {| disp := d; pool := InPass (peer :: todo) |}
         {| disp := d; pool := Trying peer todo |} /\
    step {| disp := d; pool := Trying peer todo |}
         {| disp := d1; pool := Trying peer todo |} /\
    (fst (handleResp d req resp (Addr peer)) = banPeer d (Addr peer) ->
     d1 = banPeer d (Addr peer) /\ Addr peer ∈ bannedPeers d1) /\
    step {| disp := d1; pool := Trying peer todo |}
         {| disp := d2; pool := p2 |} /\
    io d2 = io d1 ++ [EvDial (Addr peer)].
Proof.
  intros Hskip.
  exists (fst (handleResp d req resp (Addr peer))).
  exists (emit [EvDial (Addr peer)] (fst (handleResp d req resp (Addr peer)))).
  exists (InPass todo).
  split; [apply step_pool, step_check, Hskip|].
  split; [apply step_resp|]. split.
  - intros E. split; [exact E|]. rewrite E.
    destruct (banPeer_shape d (Addr peer)) as (evs & -> & _). cbn.
    apply elem_of_union_l, elem_of_singleton. reflexivity.
  - split; [|reflexivity].
    apply step_pool.
    apply (step_try_fail _ peer todo DialError _ Continue); [exact I|].
    reflexivity.
Qed.

Lemma published_move (d d' : PrunedBlockDispatcher) (p p' : PoolTask) evs :
  (forall a, is_Some (currentPeers d' !! a) ->
             is_Some (currentPeers d !! a)) ->
  io d' = io d ++ evs ->
  (forall queryPeer todo,
     p' = Recording queryPeer todo ->
     In (EvPublish (peerAddr queryPeer)) evs \/
     exists todo', p = Recording queryPeer todo') ->
  published_inv {| disp := d; pool := p |} ->
  published_inv {| disp := d'; pool := p' |}.
Proof.
  intros Hconn Hio Hrec [Hpub Hp]. unfold published_inv. cbn in *.
  rewrite Hio. split.
  - intros a Hs. apply in_app_iff. left. apply Hpub, Hconn, Hs.
  - destruct p' as [| | |queryPeer todo| |]; try exact I.
    apply in_app_iff.
    destruct (Hrec queryPeer todo eq_refl) as [Hin | [todo' ->]]; auto.
Qed.

Lemma published_step (w w' : World) :
  published_inv w -> step w w' -> published_inv w'.
Proof.
  intros Hinv Hstep.
  assert (Hkeep : forall (d d' : PrunedBlockDispatcher) p,
            currentPeers d' = currentPeers d -> io d' = io d ->
            published_inv {| disp := d; pool := p |} ->
            published_inv {| disp := d'; pool := p |}).
  { intros d d' p Ec Ei. apply (published_move d d' p p []).
    - rewrite Ec. auto.
    - rewrite Ei, app_nil_r. reflexivity.
    - intros qp todo ->. right. eauto. }
  step_cases Hstep; try exact Hinv;
    try exact (Hkeep _ _ _ eq_refl eq_refl Hinv).
  - (* Start *)
    apply (published_move d _ NotStarted p [EvGetPeers]);
      [auto | reflexivity | | exact Hinv].
    intros qp todo ->. inversion Hb.
  - (* a tick *)
    apply (published_move d _ Waiting p [EvGetPeers]);
      [auto | reflexivity | | exact Hinv].
    intros qp todo ->. inversion Hb.
  - (* a candidate that fails *)
    eapply (published_move d _ _ _ _);
      [auto | reflexivity | | exact Hinv].
    intros qp t. destruct ctl; discriminate.
  - (* a candidate that is published *)
    eapply (published_move d _ _ _ _);
      [auto | reflexivity | | exact Hinv].
    intros qp t [= <- _]. left. apply H1. reflexivity.
  - (* the peer is recorded *)
    destruct Hinv as [Hpub Hp]. cbn in Hpub, Hp.
    unfold published_inv. cbn. split.
    + intros a Hs. destruct (decide (peerAddr queryPeer = a)) as [<- | Hne];
        [exact Hp|]. rewrite lookup_insert_ne in Hs by exact Hne. auto.
    + destruct ctl; exact I.
  - (* a disconnect cleanup *)
    apply (published_move d _ p p []);
      [ | cbn; rewrite app_nil_r; reflexivity | | exact Hinv].
    + intros a Hs. cbn in Hs. destruct (decide (addr = a)) as [<- | Hne].
      * rewrite lookup_delete_eq in Hs. destruct Hs. discriminate.
      * rewrite lookup_delete_ne in Hs by exact Hne. exact Hs.
    + intros qp todo ->. right. eauto.
  - (* Query *)
    destruct (newRequest_shape d blocks) as (n & _ & ->).
    exact (Hkeep _ _ _ eq_refl eq_refl Hinv).
  - (* a response *)
    destruct (handleResp_shape d req resp peer)
      as [-> | [-> | (block & chans & _ & ->)]];
      try exact Hinv; try exact (Hkeep _ _ _ eq_refl eq_refl Hinv).
    destruct (banPeer_shape d peer) as (evs & -> & _).
    apply (published_move d _ p p evs);
      [auto | reflexivity | | exact Hinv].
    intros qp todo ->. right. eauto.
Qed.

(** X14: the work manager knows every connected peer: in every world the
    dispatcher can reach, each address in the connected map has been sent on
    peersConnected. *)
Theorem connected_were_published (c : PrunedBlockDispatcherConfig)
  (w : World) (a : string) :
  reachable c w ->
  is_Some (currentPeers (disp w) !! a) ->
  In (EvPublish a) (io (disp w)).
Proof.
  intros Hreach. revert a.
  assert (Hinv : published_inv w).
  { induction Hreach as [d Hnew | w w' _ IH Hstep].
    - unfold NewPrunedBlockDispatcher in Hnew.
      destruct (_ <? _)%Z; [discriminate|].
      destruct (_ >? _)%Z; [discriminate|].
      injection Hnew as <-. split; [|exact I]. cbn. intros a Hs.
      rewrite lookup_empty in Hs. destruct Hs. discriminate.
    - exact (published_step w w' IH Hstep). }
  exact (proj1 Hinv).
Qed.

Lemma registerAll_waiters (ch : nat) (l : list N) (m : gmap N (list nat)) :
  (forall h chans, m !! h = Some chans -> chans <> []) ->
  forall h chans, registerAll ch l m !! h = Some chans -> chans <> [].
Proof.
  intros Hm h chans Hh.
  destruct (registerAll_keeps ch h l m) as [Hkeep _].
  rewrite Hh in Hkeep. cbn in Hkeep.
  destruct (m !! h) as [old|] eqn:E.
  - specialize (Hm h old E). subst chans. cbn.
    destruct old; [contradiction | discriminate].
  - assert (Hin : In h l).
    { destruct (proj1 (registerAll_dom ch h l m)) as [[? Hs] | Hin];
        [eauto | congruence | exact Hin]. }
    apply (count_occ_In N.eq_dec) in Hin. subst chans. cbn.
    destruct (count_occ N.eq_dec l h); [lia | discriminate].
Qed.

Lemma waiters_step (w w' : World) :
  waiters_inv (disp w) -> step w w' -> waiters_inv (disp w').
Proof.
  intros Hinv Hstep. step_cases Hstep; try exact Hinv.
  - destruct (newRequest_shape d blocks) as (n & _ & ->).
    unfold waiters_inv. cbn. apply registerAll_waiters. exact Hinv.
  - destruct (handleResp_shape d req resp peer)
      as [-> | [-> | (block & chans & _ & ->)]]; [exact Hinv | |].
    + destruct (banPeer_shape d peer) as (evs & -> & _). exact Hinv.
    + intros h l Hh. cbn in Hh. apply lookup_delete_Some in Hh as [_ Hh].
      exact (Hinv h l Hh).
Qed.

(** X15: in every world the dispatcher can reach, a hash is in the pending
    map only with at least one channel waiting for it. *)
Theorem pending_has_waiters (c : PrunedBlockDispatcherConfig) (w : World)
  (h : N) (blockChans : list nat) :
  reachable c w ->
  blocksQueried (disp w) !! h = Some blockChans ->
  blockChans <> [].
Proof.
  intros Hreach. revert h blockChans.
  change (waiters_inv (disp w)).
  induction Hreach as [d Hnew | w w' _ IH Hstep].
  - unfold NewPrunedBlockDispatcher in Hnew.
    destruct (_ <? _)%Z; [discriminate|].
    destruct (_ >? _)%Z; [discriminate|].
    injection Hnew as <-. intros h l Hh. cbn in Hh.
    rewrite lookup_empty in Hh. discriminate Hh.
  - exact (waiters_step w w' IH Hstep).
Qed.

(** *** Room in the channels *)

Lemma pending_count_empty (c : nat) : pending_count c ∅ = 0%nat.
Proof. unfold pending_count. apply map_fold_empty. Qed.

Lemma pending_count_insert (c : nat) (h : N) (l : list nat)
  (m : gmap N (list nat)) :
  m !! h = None ->
  pending_count c (<[h := l]> m)
  = (count_occ Nat.eq_dec l c + pending_count c m)%nat.
Proof.
  intros Hnone. unfold pending_count.
  rewrite map_fold_insert_L; [reflexivity | | exact Hnone].
  intros. lia.
Qed.

Lemma pending_count_delete (c : nat) (h : N) (l : list nat)
  (m : gmap N (list nat)) :
  m !! h = Some l ->
  pending_count c m
  = (count_occ Nat.eq_dec l c + pending_count c (delete h m))%nat.
Proof.
  intros Hsome. rewrite <- (insert_delete_id m h l Hsome) at 1.
  apply pending_count_insert, lookup_delete_eq.
Qed.

Lemma pending_count_register (c ch : nat) (h : N) (m : gmap N (list nat)) :
  pending_count c (register ch h m)
  = (pending_count c m + if decide (ch = c) then 1 else 0)%nat.
Proof.
  unfold register. destruct (m !! h) as [l|] eqn:E; cbn [default].
  - rewrite (pending_count_delete c h l m E).
    rewrite <- insert_delete_eq.
    rewrite pending_count_insert by apply lookup_delete_eq.
    rewrite count_occ_app. cbn.
    destruct (Nat.eq_dec ch c), (decide (ch = c)); try contradiction; lia.
  - rewrite pending_count_insert by exact E. cbn.
    destruct (Nat.eq_dec ch c), (decide (ch = c)); try contradiction; lia.
Qed.

Lemma pending_count_registerAll (c ch : nat) (l : list N) :
  forall m : gmap N (list nat),
    pending_count c (registerAll ch l m)
    = (pending_count c m + if decide (ch = c) then length l else 0)%nat.
Proof.
  induction l as [|h l IH]; intros m; cbn [registerAll length].
  - destruct (decide (ch = c)); lia.
  - rewrite IH, pending_count_register. destruct (decide (ch = c)); lia.
Qed.

Lemma fanout_count_app (c : nat) (t1 t2 : list (MsgBlock * list nat)) :
  fanout_count c (t1 ++ t2) = (fanout_count c t1 + fanout_count c t2)%nat.
Proof.
  induction t1 as [|t t1 IH]; [reflexivity|]. cbn. rewrite IH. lia.
Qed.

Lemma fanout_count_split (c k : nat) (tasks : list (MsgBlock * list nat))
  (task : MsgBlock * list nat) :
  tasks !! k = Some task ->
  fanout_count c tasks
  = (fanout_count c (take k tasks) + count_occ Nat.eq_dec (snd task) c
     + fanout_count c (drop (S k) tasks))%nat.
Proof.
  intros Hk. rewrite <- (take_drop_middle tasks k task Hk) at 1.
  rewrite fanout_count_app. cbn. lia.
Qed.

Lemma fanout_count_insert (c k : nat) (tasks : list (MsgBlock * list nat))
  (task task' : MsgBlock * list nat) :
  tasks !! k = Some task ->
  (fanout_count c (<[k := task']> tasks)
   + count_occ Nat.eq_dec (snd task) c
   = fanout_count c tasks + count_occ Nat.eq_dec (snd task') c)%nat.
Proof.
  intros Hk.
  assert (Hk' : <[k := task']> tasks !! k = Some task').
  { apply list_lookup_insert_eq. apply lookup_lt_Some in Hk. exact Hk. }
  rewrite (fanout_count_split c k tasks task Hk).
  rewrite (fanout_count_split c k _ task' Hk').
  rewrite take_insert_ge by lia. rewrite drop_insert_lt by lia. lia.
Qed.

Lemma room_inv_same (d d' : PrunedBlockDispatcher) :
  heap d' = heap d -> blocksQueried d' = blocksQueried d ->
  fanouts d' = fanouts d -> room_inv d -> room_inv d'.
Proof.
  unfold room_inv, owed. intros -> -> ->. auto.
Qed.

Lemma room_step (w w' : World) :
  room_inv (disp w) -> step w w' -> room_inv (disp w').
Proof.
  intros Hinv Hstep.
  step_cases Hstep; cbn [disp] in Hinv; try exact Hinv;
    try exact (room_inv_same _ _ eq_refl eq_refl eq_refl Hinv).
  - (* Query: the new channel has room for every registration *)
    destruct (newRequest_shape d blocks) as (n & Hn & ->).
    intros c. specialize (Hinv c). unfold owed in *. cbn.
    rewrite pending_count_registerAll, length_take.
    destruct (decide (length (heap d) = c)) as [<- | Hne].
    + rewrite lookup_ge_None_2 in Hinv by lia.
      rewrite lookup_app_r by lia. rewrite Nat.sub_diag. cbn. lia.
    + destruct (heap d !! c) as [ch|] eqn:E.
      * rewrite (lookup_app_l_Some _ _ _ _ E). lia.
      * rewrite lookup_ge_None_2; [lia|].
        apply lookup_ge_None_1 in E. rewrite length_app. cbn. lia.
  - (* a response: what the map owed, the fan-out owes *)
    destruct (handleResp_shape d req resp peer)
      as [-> | [-> | (block & chans & Hh & ->)]]; [exact Hinv | |].
    + destruct (banPeer_shape d peer) as (evs & -> & _). exact Hinv.
    + intros c. specialize (Hinv c). unfold owed in *. cbn.
      rewrite fanout_count_app. cbn.
      rewrite (pending_count_delete c _ _ _ Hh) in Hinv.
      destruct (heap d !! c); lia.
  - (* a send: one block more in the buffer, one less owed *)
    intros c'. specialize (Hinv c'). unfold owed in *. cbn.
    pose proof (fanout_count_insert c' k (fanouts d) (block, c :: rest)
                  (block, rest) Hk) as Hcount.
    cbn in Hcount.
    destruct (decide (c = c')) as [<- | Hne].
    + rewrite H0 in Hinv. rewrite list_lookup_insert_eq
        by (apply lookup_lt_Some in H0; exact H0).
      cbn. rewrite length_app. cbn.
      destruct (Nat.eq_dec c c); [lia | contradiction].
    + rewrite list_lookup_insert_ne by exact Hne.
      destruct (Nat.eq_dec c c') as [Heq | _]; [contradiction|].
      destruct (heap d !! c'); lia.
  - (* a goroutine that is done owes nothing more *)
    intros c. specialize (Hinv c). unfold owed in *. cbn.
    rewrite (fanout_count_split c k _ _ Hk) in Hinv.
    rewrite fanout_count_app. destruct (heap d !! c); lia.
  - (* a goroutine that gives up *)
    intros c. specialize (Hinv c). unfold owed in *. cbn.
    rewrite (fanout_count_split c k _ _ Hk) in Hinv.
    rewrite fanout_count_app. destruct (heap d !! c); lia.
Qed.

Lemma room_reachable (c : PrunedBlockDispatcherConfig) (w : World) :
  reachable c w -> room_inv (disp w).
Proof.
  induction 1 as [d Hnew | w w' _ IH Hstep].
  - unfold NewPrunedBlockDispatcher in Hnew.
    destruct (_ <? _)%Z; [discriminate|].
    destruct (_ >? _)%Z; [discriminate|].
    injection Hnew as <-. intros ch. unfold owed. cbn.
    rewrite lookup_nil, pending_count_empty. reflexivity.
  - exact (room_step w w' IH Hstep).
Qed.

(** X16: the buffer of a delivery channel always has room.  In every world
    the dispatcher can reach, the blocks in a channel's buffer and the sends
    it is still owed, by the pending map and by the fan-out goroutines,
    fit its capacity; so the send a fan-out goroutine is about to make goes
    through at once. *)
Theorem fanout_send_never_waits (c : PrunedBlockDispatcherConfig) (w : World)
  (k : nat) (block : MsgBlock) (blockChan : nat) (rest : list nat) :
  reachable c w ->
  fanouts (disp w) !! k = Some (block, blockChan :: rest) ->
  exists ch,
    heap (disp w) !! blockChan = Some ch /\
    (length (buf ch) + owed blockChan (disp w) <= cap ch)%nat /\
    send (disp w) blockChan block
    = Some (set_heap (fun hp =>
              <[blockChan := {| cap := cap ch; buf := buf ch ++ [block];
                                closed := closed ch |}]> hp) (disp w)).
Proof.
  intros Hreach Hk.
  pose proof (room_reachable c w Hreach blockChan) as Hroom.
  pose proof (all_open_reachable c w Hreach blockChan) as Hopen.
  assert (Howed : (1 <= owed blockChan (disp w))%nat).
  { unfold owed. rewrite (fanout_count_split blockChan k _ _ Hk). cbn.
    destruct (Nat.eq_dec blockChan blockChan); [lia | contradiction]. }
  destruct (heap (disp w) !! blockChan) as [ch|] eqn:E; [|lia].
  exists ch. split; [reflexivity|]. split; [exact Hroom|].
  unfold send. rewrite E, (Hopen ch eq_refl).
  replace (length (buf ch) <? cap ch)%nat with true
    by (symmetry; apply Nat.ltb_lt; lia).
  reflexivity.
Qed.

End Invariants.

(** ** The pool task on its own *)

Section PoolRuns.
Context `{Collaborators}.

Lemma pool_footprint_refl (w : World) :
  between_attempts (pool w) -> pool_footprint w w [].
Proof.
  intros Hidle. unfold pool_footprint. rewrite app_nil_r.
  split; [reflexivity|]. split; [reflexivity|]. split; [reflexivity|].
  split; [reflexivity|]. split; [reflexivity|]. split; [reflexivity|].
  split; [reflexivity|]. split; [reflexivity|]. split; [auto|].
  split; [auto|]. split; [intros a []|].
  destruct (pool w); try exact I; destruct Hidle.
Qed.

(** One more move of the pool task, at the end of a run of its moves. *)
Lemma pool_footprint_step (w w1 w2 : World) (evs : list Event) :
  pool_footprint w w1 evs -> pool_step w1 w2 ->
  exists evs', pool_footprint w w2 evs'.
Proof.
  intros (Ec & Eb & En & Et & Eh & Ef & Eq & Ei & Hk & Hp & Hd & Hpool) Hstep.
  pool_cases Hstep; cbn [disp pool] in *.
  - (* Start *)
    exists (evs ++ [EvGetPeers]). unfold pool_footprint. cbn.
    rewrite Ei, <- app_assoc.
    do 8 (split; [assumption || reflexivity|]).
    split; [exact Hk|]. split; [|split].
    + intros a Hs. rewrite in_app_iff. destruct (Hp a Hs); auto.
    + intros a Ha. apply in_app_iff in Ha as [Ha | [Ha | []]];
        [exact (Hd a Ha) | discriminate Ha].
    + destruct (pass_begins_cases p Hb) as [-> | [todo ->]]; exact I.
  - (* an idle tick *)
    exists evs. unfold pool_footprint. cbn.
    do 8 (split; [assumption|]). auto.
  - (* a tick that starts a pass *)
    exists (evs ++ [EvGetPeers]). unfold pool_footprint. cbn.
    rewrite Ei, <- app_assoc.
    do 8 (split; [assumption || reflexivity|]).
    split; [exact Hk|]. split; [|split].
    + intros a Hs. rewrite in_app_iff. destruct (Hp a Hs); auto.
    + intros a Ha. apply in_app_iff in Ha as [Ha | [Ha | []]];
        [exact (Hd a Ha) | discriminate Ha].
    + destruct (pass_begins_cases p Hb) as [-> | [todo ->]]; exact I.
  - (* skip *)
    exists evs. unfold pool_footprint. cbn.
    do 8 (split; [assumption|]). auto.
  - (* the check is passed *)
    exists evs. unfold pool_footprint. cbn.
    do 8 (split; [assumption|]). split; [exact Hk|]. split; [exact Hp|].
    split; [exact Hd|].
    destruct (skipPeer_false d peer Hskip) as [Hban Hnone].
    rewrite <- En. auto.
  - (* a candidate that fails *)
    destruct Hpool as [Hban Hnone].
    exists (evs ++ x). unfold pool_footprint. cbn.
    rewrite Ei, <- app_assoc.
    do 8 (split; [assumption || reflexivity|]).
    split; [exact Hk|]. split; [|split].
    + intros a Hs. rewrite in_app_iff. destruct (Hp a Hs); auto.
    + intros a Ha. apply in_app_iff in Ha as [Ha | Ha]; [exact (Hd a Ha)|].
      rewrite (H0 a Ha). split; [exact Hban|].
      destruct (currentPeers (disp w) !! Addr peer) as [q|] eqn:E;
        [|reflexivity].
      rewrite (Hk _ _ E) in Hnone. discriminate Hnone.
    + destruct ctl; exact I.
  - (* a candidate that is published *)
    destruct Hpool as [Hban Hnone].
    exists (evs ++ x). unfold pool_footprint. cbn.
    rewrite Ei, <- app_assoc.
    do 8 (split; [assumption || reflexivity|]).
    split; [exact Hk|]. split; [|split].
    + intros a Hs. rewrite in_app_iff. destruct (Hp a Hs); auto.
    + intros a Ha. apply in_app_iff in Ha as [Ha | Ha]; [exact (Hd a Ha)|].
      rewrite (H0 a Ha). split; [exact Hban|].
      destruct (currentPeers (disp w) !! Addr peer) as [q|] eqn:E;
        [|reflexivity].
      rewrite (Hk _ _ E) in Hnone. discriminate Hnone.
    + split; [exact Hnone|]. apply in_app_iff. right. apply H1. reflexivity.
  - (* the peer is recorded *)
    destruct Hpool as [Hnone Hpub].
    exists evs. unfold pool_footprint. cbn.
    do 8 (split; [assumption|]).
    split; [|split; [|split]].
    + intros a q Ha. destruct (decide (peerAddr queryPeer = a)) as [<- | Hne].
      * rewrite (Hk _ _ Ha) in Hnone. discriminate Hnone.
      * rewrite lookup_insert_ne by exact Hne. exact (Hk _ _ Ha).
    + intros a Hs. destruct (decide (peerAddr queryPeer = a)) as [<- | Hne];
        [auto|]. rewrite lookup_insert_ne in Hs by exact Hne. exact (Hp a Hs).
    + exact Hd.
    + destruct ctl; exact I.
  - (* the pass is over *)
    exists evs. unfold pool_footprint. cbn.
    do 8 (split; [assumption|]). auto.
  - (* pollPeers returns *)
    exists evs. unfold pool_footprint. cbn.
    do 8 (split; [assumption|]). auto.
Qed.

(** X11: what the pool task does by itself.  In any run made of its moves
    alone, with no move of another goroutine in between, started between
    two connection attempts, pollPeers and connectToPeers leave the ban set,
    the pending map, the channels, the quit channel and the config as they
    were; they keep every entry of the connected map and add a peer only
    after publishing it on peersConnected; and they dial only addresses
    that were neither banned nor connected at the start of the run. *)
Theorem pool_moves_footprint (w w' : World) :
  rtc pool_step w w' ->
  between_attempts (pool w) ->
  exists evs, pool_footprint w w' evs.
Proof.
  intros Hrun Hidle.
  revert w' Hrun.
  apply (rtc_ind_r (fun w' => exists evs, pool_footprint w w' evs)).
  - exists []. apply pool_footprint_refl, Hidle.
  - intros w1 w2 _ Hstep [evs Hf].
    exact (pool_footprint_step w w1 w2 evs Hf Hstep).
Qed.

End PoolRuns.

(** ** More along every run *)

Section InvariantsMore.
Context `{Collaborators}.

Lemma pending_count_member (c : nat) (h : N) (chans : list nat)
  (m : gmap N (list nat)) :
  m !! h = Some chans -> In c chans -> (1 <= pending_count c m)%nat.
Proof.
  intros Hh Hin. rewrite (pending_count_delete c h chans m Hh).
  apply (count_occ_In Nat.eq_dec) in Hin. lia.
Qed.

(** X17: in every world the dispatcher can reach, each channel in a list of
    the pending map is a channel that newRequest has made, and it is open. *)
Theorem waiters_are_channels (c : PrunedBlockDispatcherConfig) (w : World)
  (h : N) (blockChans : list nat) (blockChan : nat) :
  reachable c w ->
  blocksQueried (disp w) !! h = Some blockChans ->
  In blockChan blockChans ->
  exists ch,
    heap (disp w) !! blockChan = Some ch /\ closed ch = false /\
    (length (buf ch) < cap ch)%nat.
Proof.
  intros Hreach Hh Hin.
  pose proof (room_reachable c w Hreach blockChan) as Hroom.
  pose proof (all_open_reachable c w Hreach blockChan) as Hopen.
  pose proof (pending_count_member blockChan h blockChans _ Hh Hin) as Hone.
  unfold owed in Hroom.
  destruct (heap (disp w) !! blockChan) as [ch|]; [|lia].
  exists ch. split; [reflexivity|]. split; [apply Hopen; reflexivity | lia].
Qed.

(** X18: newRequest, whether it succeeds or fails, touches the pending map
    and adds one channel, and nothing else: the config, the connected map,
    the ban set, the quit channel, the fan-outs and the log of I/O are as
    they were, and so is every channel made before. *)
Theorem newRequest_footprint (d : PrunedBlockDispatcher) (blocks : list N) :
  let d' := fst (newRequest d blocks) in
  cfg d' = cfg d /\ currentPeers d' = currentPeers d /\
  bannedPeers d' = bannedPeers d /\ timeSource d' = timeSource d /\
  quit d' = quit d /\ fanouts d' = fanouts d /\ io d' = io d /\
  heap d' = heap d ++ [make_chan (length blocks)] /\
  (forall id ch, heap d !! id = Some ch -> heap d' !! id = Some ch) /\
  (forall h chans, blocksQueried d !! h = Some chans ->
     exists n, blocksQueried d' !! h
               = Some (chans ++ replicate n (length (heap d)))).
Proof.
  destruct (newRequest_shape d blocks) as (k & _ & E). cbn zeta. rewrite E.
  cbn. repeat split; try reflexivity.
  - intros id ch Hid. apply lookup_app_l_Some. exact Hid.
  - intros h chans Hh.
    destruct (registerAll_keeps (length (heap d)) h (take k blocks)
                (blocksQueried d)) as [Hkeep Hsome].
    destruct (Hsome (ex_intro _ chans Hh)) as [chans' Hh'].
    rewrite Hh, Hh' in Hkeep. cbn in Hkeep. rewrite Hh', Hkeep. eauto.
Qed.

(** X19: whatever GetPeers returns, however the candidates are shuffled and
    whatever the network does, a call of connectToPeers that starts with
    fewer than NumTargetPeers peers connected ends with at most
    NumTargetPeers. *)
Theorem connectToPeers_within_target (d : PrunedBlockDispatcher)
  (getPeers : option (list GetPeerInfoResult))
  (shuffle : list GetPeerInfoResult -> list GetPeerInfoResult)
  (net : nat -> NetOutcome) :
  (Z.of_nat (size (currentPeers d)) < NumTargetPeers (cfg d))%Z ->
  (Z.of_nat (size (currentPeers
                     (fst (connectToPeers d getPeers shuffle net))))
   <= NumTargetPeers (cfg d))%Z.
Proof.
  intros Hbelow. unfold connectToPeers.
  destruct getPeers as [peers|]; [|cbn; lia].
  destruct (filterPeers peers) as [eligible | e |]; [|cbn; lia..].
  apply connectLoop_within_target; [reflexivity | exact Hbelow].
Qed.

(** X20: with MaxRequestInvs left at 0, asking for one hash that is already
    pending queues a getdata message with no entry at all. *)
Theorem newRequest_zero_max (d : PrunedBlockDispatcher) (h : N) :
  MaxRequestInvs (cfg d) = 0%Z ->
  is_Some (blocksQueried d !! h) ->
  snd (newRequest d [h])
  = Ok ([{| Req := {| InvList := [] |} |}], length (heap d)).
Proof.
  intros Hmax [chans Hh]. unfold newRequest. cbn [newRequest_loop length].
  cbn [set_heap blocksQueried]. rewrite Hh. unfold queueNow.
  cbn [cfg set_blocksQueried set_heap orNew NewMsgGetData InvList length].
  rewrite Hmax. reflexivity.
Qed.

End InvariantsMore.

(** ** The runs of [Sim], [Tiny] and [Later] *)

Section MoreRuns.
#[local] Existing Instance Sim.collaborators.

Lemma asked_reachable :
  reachable Sim.config {| disp := Sim.asked; pool := Waiting |}.
Proof.
  eapply reach_step; [exact connected_reachable|].
  apply (step_query Sim.connected Waiting [5%N]).
Qed.

Lemma newRequest_registers_witness :
  default [] (blocksQueried
                (fst (newRequest (fst (newRequest (Sim.fresh 1 2) [1; 2]%N))
                        [2; 3; 2]%N)) !! 2%N)
  = [0; 1; 1]%nat.
Proof.
  destruct (newRequest_registers
              (fst (newRequest (Sim.fresh 1 2) [1; 2]%N))
              (fst (newRequest (fst (newRequest (Sim.fresh 1 2) [1; 2]%N))
                      [2; 3; 2]%N))
              [2; 3; 2]%N [{| Req := {| InvList := [block_inv 3] |} |}] 1%nat
              ltac:(vm_compute; reflexivity)) as (_ & _ & Hall).
  destruct (Hall 2%N) as (Hkeep & _). rewrite Hkeep. vm_compute. reflexivity.
Defined.

Lemma newRequest_no_empty_batch_witness :
  Forall (fun r => InvList (Req r) <> [])
    [{| Req := {| InvList := [block_inv 3] |} |}].
Proof.
  exact (newRequest_no_empty_batch
           (fst (newRequest (Sim.fresh 1 2) [1; 2]%N))
           (fst (newRequest (fst (newRequest (Sim.fresh 1 2) [1; 2]%N))
                   [2; 3; 2]%N))
           [2; 3; 2]%N [{| Req := {| InvList := [block_inv 3] |} |}] 1%nat
           ltac:(vm_compute; discriminate)
           ltac:(vm_compute; reflexivity)).
Defined.

Lemma Query_error_channel_witness :
  exists errChan,
    Query Sim.asked [5; 5]%N
    = (fst (newRequest Sim.asked [5; 5]%N), Some (Some 1%nat, errChan)) /\
    errChan = NilErrChan.
Proof.
  destruct (Query_error_channel Sim.asked [5; 5]%N
              ltac:(vm_compute; split; discriminate))
    as (errChan & Hq & Hnil & _).
  exists errChan. split; [exact Hq|]. apply Hnil.
  intros h [<- | [<- | []]]; vm_compute; eauto.
Defined.

Lemma served_hash_is_fetched_again_witness :
  length (entries_for 5%N
            (invs_of [{| Req := {| InvList := [block_inv 5] |} |}])) = 1%nat /\
  blocksQueried (fst (newRequest Sim.answered [5%N])) !! 5%N = Some [1%nat].
Proof.
  exact (served_hash_is_fetched_again Sim.asked
           (fst (newRequest Sim.answered [5%N]))
           {| InvList := [block_inv 5] |} Sim.good_block Sim.addr1 [0%nat]
           [5%N] [{| Req := {| InvList := [block_inv 5] |} |}] 1%nat
           ltac:(vm_compute; reflexivity) eq_refl
           ltac:(left; reflexivity)
           ltac:(vm_compute; reflexivity)).
Defined.

Lemma invalid_then_valid_witness :
  fanouts (fst (handleResp Sim.rejected Sim.getdata5
                  (MBlock Sim.good_block) "10.0.0.9:8333"))
  = [(Sim.good_block, [0%nat])] /\
  Sim.addr1 ∈ bannedPeers (fst (handleResp Sim.rejected Sim.getdata5
                                  (MBlock Sim.good_block) "10.0.0.9:8333")).
Proof.
  destruct (invalid_then_valid Sim.asked {| InvList := [block_inv 5] |}
              Sim.bad_block Sim.good_block Sim.addr1 "10.0.0.9:8333"
              [0%nat] eq_refl ltac:(vm_compute; reflexivity) eq_refl eq_refl)
    as (_ & _ & _ & Hfan & Hban).
  split; [exact Hfan | exact Hban].
Defined.


Lemma connectLoop_reaches_target_witness :
  size (currentPeers (fst (connectLoop (Sim.fresh 2 2) Later.three
                             (fun _ => Published) 0))) = 2%nat.
Proof.
  destruct (connectLoop_reaches_target Later.three (Sim.fresh 2 2)
              (fun _ => Published) 0) as (_ & _ & Hsize).
  - apply (bool_decide_unpack (NoDup (map Addr Later.three))).
    vm_compute. exact I.
  - intros p Hp. split; [cbn; apply not_elem_of_empty|].
    cbn. apply lookup_empty.
  - reflexivity.
  - vm_compute. split; [reflexivity | discriminate].
  - apply Nat2Z.inj. exact Hsize.
Defined.

Lemma connectToPeers_within_target_witness :
  (Z.of_nat (size (currentPeers
                     (fst (connectToPeers (Sim.fresh 1 2)
                             (Some S1.candidates) (fun l => l)
                             (fun _ => Published))))) <= 1)%Z.
Proof.
  apply (connectToPeers_within_target (Sim.fresh 1 2) (Some S1.candidates)
           (fun l => l) (fun _ => Published)).
  vm_compute. reflexivity.
Defined.

Lemma newRequest_zero_max_witness :
  snd (newRequest (fst (newRequest (Sim.fresh 1 0) [7%N])) [7%N])
  = Ok ([{| Req := {| InvList := [] |} |}], 1%nat).
Proof.
  apply (newRequest_zero_max (fst (newRequest (Sim.fresh 1 0) [7%N])) 7%N).
  - reflexivity.
  - vm_compute. eauto.
Defined.

Lemma banned_never_dialed_witness :
  Sim.addr1 ∈ bannedPeers Later.polled /\
  exists evs,
    io Later.polled = io Later.cleaned ++ evs /\ ~ In (EvDial Sim.addr1) evs.
Proof.
  destruct (banned_never_dialed
              {| disp := Later.cleaned; pool := Waiting |}
              {| disp := Later.polled; pool := Waiting |} Sim.addr1)
    as (Hban & _ & Hio).
  - eapply rtc_l.
    { apply step_pool, (step_tick_pass Later.cleaned (InPass [S1.full])).
      - vm_compute. intros Hle. apply Hle. reflexivity.
      - apply (pass_loop S1.candidates [S1.full] [S1.full]);
          [vm_compute; reflexivity | reflexivity]. }
    eapply rtc_l.
    { apply step_pool, (step_skip Later.polled S1.full []).
      vm_compute. reflexivity. }
    eapply rtc_l; [apply step_pool, step_pass_done | apply rtc_refl].
  - apply (bool_decide_unpack (Sim.addr1 ∈ bannedPeers Later.cleaned)).
    vm_compute. exact I.
  - intros peer todo. discriminate.
  - split; [exact Hban | exact Hio].
Defined.

Lemma pool_moves_footprint_witness :
  exists evs,
    pool_footprint {| disp := Sim.fresh 2 2; pool := InPass Later.three |}
      {| disp := fst (connectLoop (Sim.fresh 2 2) Later.three
                        (fun _ => Published) 0);
         pool := Waiting |} evs.
Proof.
  apply (pool_moves_footprint
           {| disp := Sim.fresh 2 2; pool := InPass Later.three |}).
  - apply connectLoop_run. intros j. exact I.
  - exact I.
Defined.

Lemma connected_were_published_witness :
  In (EvPublish Sim.addr1) (io Sim.connected).
Proof.
  apply (connected_were_published Sim.config
           {| disp := Sim.connected; pool := Waiting |} Sim.addr1
           connected_reachable).
  vm_compute. eauto.
Defined.

Lemma pending_has_waiters_witness : [0%nat] <> [].
Proof.
  exact (pending_has_waiters Sim.config
           {| disp := Sim.asked; pool := Waiting |} 5%N [0%nat]
           asked_reachable ltac:(vm_compute; reflexivity)).
Defined.

Lemma fanout_send_never_waits_witness :
  exists ch,
    heap Sim.answered !! 0%nat = Some ch /\
    (length (buf ch) + owed 0 Sim.answered <= cap ch)%nat /\
    send Sim.answered 0 Sim.good_block
    = Some (set_heap (fun hp =>
              <[0%nat := {| cap := cap ch; buf := buf ch ++ [Sim.good_block];
                            closed := closed ch |}]> hp) Sim.answered).
Proof.
  exact (fanout_send_never_waits Sim.config
           {| disp := Sim.answered; pool := Waiting |} 0 Sim.good_block 0 []
           answered_reachable ltac:(vm_compute; reflexivity)).
Defined.

Lemma waiters_are_channels_witness :
  exists ch,
    heap Sim.asked !! 0%nat = Some ch /\ closed ch = false /\
    (length (buf ch) < cap ch)%nat.
Proof.
  exact (waiters_are_channels Sim.config
           {| disp := Sim.asked; pool := Waiting |} 5%N [0%nat] 0%nat
           asked_reachable ltac:(vm_compute; reflexivity)
           ltac:(left; reflexivity)).
Defined.

End MoreRuns.

Section TinyRun.
#[local] Existing Instance Tiny.collaborators.

Lemma newRequest_fails_witness :
  snd (newRequest Tiny.fresh [1; 2; 3]%N) = Err ErrTooManyInvs /\
  exists k h,
    [1; 2; 3]%N !! k = Some h /\
    blocksQueried (fst (newRequest Tiny.fresh [1; 2; 3]%N))
    = registerAll 0 (take k [1; 2; 3]%N) ∅ /\
    blocksQueried (fst (newRequest Tiny.fresh [1; 2; 3]%N)) !! h = None.
Proof.
  destruct (newRequest_fails Tiny.fresh
              (fst (newRequest Tiny.fresh [1; 2; 3]%N)) [1; 2; 3]%N
              ErrTooManyInvs ltac:(vm_compute; reflexivity))
    as (_ & _ & _ & Hleft).
  split; [vm_compute; reflexivity | exact Hleft].
Defined.

End TinyRun.
